(** * Token-swap pipeline: approve, swap, supply

    A shallow embedding of [index.js]: the pipeline [main] and the five
    functions it sequences, over an explicit model of the chain (an oracle
    answering every call the script makes) and of the console.  The amount
    codec ([ethers.parseUnits], [ethers.formatUnits]) is library code that
    the script only calls; it is modelled from the specification. *)

From Stdlib Require Import ZArith List String Ascii Bool Lia QArith.
Import ListNotations.

Local Open Scope Z_scope.

(** ** JavaScript values the script handles *)

(** A thrown [Error]: the script reads nothing of it but [message]. *)
Record JsError : Type := mkError { message : string }.

(** The outcome of an awaited call: a value, or a thrown error. *)
Inductive Result (A : Type) : Type :=
| Ok (a : A)
| Err (e : JsError).
Arguments Ok {A} a.
Arguments Err {A} e.

(** Addresses and transaction hashes are strings in the script. *)
Definition Address := string.
Definition Hash := string.

(** What [factoryContract.getPool] may hand back: [null] or a string. *)
Inductive JsAddr : Type :=
| JsNull
| JsStr (s : string).

(** JavaScript truthiness, as used by [if (!poolAddress)]: [null] and the
    empty string are falsy, every other string is truthy. *)
Definition truthy (v : JsAddr) : bool :=
  match v with
  | JsNull => false
  | JsStr s => negb (String.eqb s "")
  end.

(** ** Decimal digit strings *)

Definition is_digit (c : ascii) : bool :=
  let n := nat_of_ascii c in (48 <=? n)%nat && (n <=? 57)%nat.

Definition digit_val (c : ascii) : Z := Z.of_nat (nat_of_ascii c) - 48.

Definition digit_char (d : Z) : ascii := ascii_of_nat (Z.to_nat d + 48).

Definition zero_char : ascii := "0"%char.
Definition dot_char : ascii := "."%char.
Definition minus_char : ascii := "-"%char.

(** The value of a big-endian digit string. *)
Definition num (ds : list ascii) : Z :=
  fold_left (fun acc c => 10 * acc + digit_val c) ds 0.

(** [BigInt.prototype.toString] on a non-negative integer: its decimal
    digits, most significant first.  The fuel is the bit length, which
    bounds the number of decimal digits. *)
Fixpoint digits_aux (fuel : nat) (n : Z) (acc : list ascii) : list ascii :=
  match fuel with
  | O => acc
  | S f =>
      let acc' := digit_char (n mod 10) :: acc in
      if n <? 10 then acc' else digits_aux f (n / 10) acc'
  end.

Definition digits (n : Z) : list ascii :=
  digits_aux (S (Z.to_nat (Z.log2 n))) n [].

Definition zeros (k : nat) : list ascii := repeat zero_char k.

(** Cut a string at its first ["."]: the part before it, and the part after
    it when there is one. *)
Fixpoint split_dot (s : list ascii) : list ascii * option (list ascii) :=
  match s with
  | [] => ([], None)
  | c :: r =>
      if Ascii.eqb c dot_char then ([], Some r)
      else let (ip, fp) := split_dot r in (c :: ip, fp)
  end.

(** Drop the zeros a digit string ends with. *)
Fixpoint strip_trailing_zeros (l : list ascii) : list ascii :=
  match l with
  | [] => []
  | c :: r =>
      match strip_trailing_zeros r with
      | [] => if Ascii.eqb c zero_char then [] else [c]
      | r' => c :: r'
      end
  end.

(** The same, leaving one ["0"] when nothing else is left. *)
Definition trim_fraction (l : list ascii) : list ascii :=
  match strip_trailing_zeros l with
  | [] => [zero_char]
  | l' => l'
  end.

Definition pad_left (k : nat) (l : list ascii) : list ascii :=
  zeros (k - List.length l) ++ l.

(** ** The amount codec *)

Definition InvalidAmount : JsError := mkError "InvalidAmount".

(** Modelled from the spec: [ethers.parseUnits], the specification's
    [toBaseUnits], is library code absent from the sources.  It reads a
    decimal numeral (digits, optionally a point and more digits) and returns
    it scaled by ten to the precision, as an exact integer.  It fails with
    [InvalidAmount] on a sign or any other character that is not part of a
    numeral, on a numeral with no digit, on more fractional digits than the
    precision can hold (no rounding), and on a precision beyond the
    supported bound ([parseUnits] below checks the bound). *)
Definition parse_digits (s : list ascii) (precision : nat) : Result Z :=
  let (ip, ofp) := split_dot s in
  let fp := match ofp with Some fp => fp | None => [] end in
  if forallb is_digit ip && forallb is_digit fp
     && (0 <? List.length ip + List.length fp)%nat
     && (List.length fp <=? precision)%nat
  then Ok (num (ip ++ fp ++ zeros (precision - List.length fp)))
  else Err InvalidAmount.

(** Modelled from the spec: [ethers.formatUnits], the specification's
    [toDecimalString], is library code absent from the sources.  It writes
    the integer [value] divided by ten to the precision as a decimal
    numeral: the digits, padded so that one digit stands before the point,
    the point before the last [unit] digits, and the zeros at the end
    dropped down to one fractional digit.  With precision zero there is no
    point. *)
Definition format_digits (n : Z) (unit : nat) : list ascii :=
  match unit with
  | O => digits n
  | S _ =>
      let ds := pad_left (S unit) (digits n) in
      let k := (List.length ds - unit)%nat in
      firstn k ds ++ dot_char :: trim_fraction (skipn k ds)
  end.

(** Modelled from the spec: the entry point of [ethers.formatUnits]
    ([toDecimalString]), absent from the sources; a negative integer is
    written as its opposite after a minus sign. *)
Definition formatUnits (value : Z) (unit : nat) : string :=
  string_of_list_ascii
    (if value <? 0 then minus_char :: format_digits (- value) unit
     else format_digits value unit).

(** Trailing-zero normalisation of a decimal numeral: the zeros that end
    the fraction are dropped, and the point with them when no fractional
    digit is left. *)
Definition normalize_digits (s : list ascii) : list ascii :=
  let (ip, ofp) := split_dot s in
  match ofp with
  | None => ip
  | Some fp =>
      match strip_trailing_zeros fp with
      | [] => ip
      | fp' => ip ++ dot_char :: fp'
      end
  end.

Definition normalize (s : string) : string :=
  string_of_list_ascii (normalize_digits (list_ascii_of_string s)).

(** A digit string is canonical when it is a single digit or starts with a
    digit other than zero. *)
Definition canonical (l : list ascii) : bool :=
  forallb is_digit l
  && match l with
     | [] => false
     | [_] => true
     | c :: _ => negb (Ascii.eqb c zero_char)
     end.

(** The valid decimal amounts at a precision: a canonical whole part,
    optionally a point and fractional digits, no more of them than the
    precision holds.  (The codec also reads numerals with zeros in front or
    with no whole part; those it writes back in canonical form, with the
    same value.) *)
Definition valid_amount (precision : nat) (a : string) : bool :=
  let (ip, ofp) := split_dot (list_ascii_of_string a) in
  let fp := match ofp with Some fp => fp | None => [] end in
  canonical ip && forallb is_digit fp && (List.length fp <=? precision)%nat.

(** The rational number a decimal numeral denotes. *)
Definition amount_value (a : string) : Q :=
  let (ip, ofp) := split_dot (list_ascii_of_string a) in
  let fp := match ofp with Some fp => fp | None => [] end in
  inject_Z (num (ip ++ fp)) / inject_Z (10 ^ Z.of_nat (List.length fp)).

(** ** Configuration of the script *)

Record Token : Type := {
  chainId : Z;
  address : Address;
  decimals : nat;
  symbol : string;
  name : string;
  isToken : bool;
  isNative : bool;
  wrapped : bool
}.

Definition POOL_FACTORY_CONTRACT_ADDRESS : Address :=
  "0x0227628f3F023bb0B980b67D528571c95c6DaC1c"%string.
Definition SWAP_ROUTER_CONTRACT_ADDRESS : Address :=
  "0x3bFA4769FB09eefC5a80d6E87c3B9C650f7Ae48E"%string.
Definition AAVE_LENDING_POOL_ADDRESS : Address :=
  "0x7d2768dE32b0b80b7a3454c06BdAc94A69DDc7A9"%string.

Definition USDC : Token := {|
  chainId := 11155111;
  address := "0x1c7D4B196Cb0C7B01d743Fbc6116a902379C7238"%string;
  decimals := 6;
  symbol := "USDC"%string;
  name := "USD//C"%string;
  isToken := true;
  isNative := true;
  wrapped := false
|}.

Definition LINK : Token := {|
  chainId := 11155111;
  address := "0x779877A7B0D9E8603169DdbD7836e478b4624789"%string;
  decimals := 18;
  symbol := "LINK"%string;
  name := "Chainlink"%string;
  isToken := true;
  isNative := true;
  wrapped := false
|}.

(** ** Contract calls and transactions *)

(** The argument of the router's [exactInputSingle]. *)
Module Swap.
Record Params : Type := {
  tokenIn : Address;
  tokenOut : Address;
  fee : Z;
  recipient : Address;
  amountIn : Z;
  amountOutMinimum : Z;
  sqrtPriceLimitX96 : Z
}.
End Swap.

(** A state-changing contract function with its arguments. *)
Inductive CallData : Type :=
| approve (spender : Address) (amount : Z)
| exactInputSingle (params : Swap.Params)
| deposit (asset : Address) (amount : Z) (onBehalfOf : Address)
          (referralCode : Z).

(** A call payload: the contract it goes to and the encoded call.  The
    encoding is kept symbolic. *)
Record Transaction : Type := { to : Address; data : CallData }.

(** What [getPoolInfo] returns; a contract object is its address. *)
Module Pool.
Record Info : Type := {
  poolContract : Address;
  token0 : Address;
  token1 : Address;
  fee : Z
}.
End Pool.

(** ** The world the script runs in *)

(** Everything the script does that can be observed from outside, in the
    order it happens: calls to the node, and lines on the console. *)
Inductive Event : Type :=
| Send (tx : Transaction)
| Wait (hash : Hash)
| GetPool (tokenA tokenB : Address) (feeTier : Z)
| Token0 (pool : Address)
| Token1 (pool : Address)
| Fee (pool : Address)
| Log (line : string)
| LogObject (label : string) (hash : Hash)
| LogError (label : string) (text : string).

Definition Trace := list Event.

(** The node, the contracts and the signer, as an oracle: what each call
    answers, given everything that happened before it.  [populate_result]
    is the outcome of encoding a call ([populateTransaction]),
    [send_result] of signing and submitting it (the hash of the response),
    [wait_result] of waiting for its inclusion (the hash of the receipt). *)
Record World : Type := {
  signer_address : Address;
  populate_result : Trace -> Transaction -> Result unit;
  send_result : Trace -> Transaction -> Result Hash;
  wait_result : Trace -> Hash -> Result Hash;
  getPool_result : Trace -> Address -> Address -> Z -> Result JsAddr;
  token0_result : Trace -> Address -> Result Address;
  token1_result : Trace -> Address -> Result Address;
  fee_result : Trace -> Address -> Result Z
}.

(** An [async] function: it reads the world, extends the trace, and returns
    or throws. *)
Definition Async (A : Type) : Type := World -> Trace -> Trace * Result A.

Definition ret {A} (a : A) : Async A := fun _ t => (t, Ok a).

Definition throw {A} (e : JsError) : Async A := fun _ t => (t, Err e).

Definition bind {A B} (c : Async A) (k : A -> Async B) : Async B :=
  fun w t =>
    match c w t with
    | (t', Ok a) => k a w t'
    | (t', Err e) => (t', Err e)
    end.

(** [try { c } catch (error) { h error }] *)
Definition try_catch {A} (c : Async A) (h : JsError -> Async A) : Async A :=
  fun w t =>
    match c w t with
    | (t', Ok a) => (t', Ok a)
    | (t', Err e) => h e w t'
    end.

Definition lift {A} (r : Result A) : Async A := fun _ t => (t, r).

Definition emit (e : Event) : Async unit := fun _ t => (t ++ [e], Ok tt).

(** A call to the world: the event is recorded, the oracle answers from the
    trace before it. *)
Definition call {A} (e : Event) (answer : World -> Trace -> Result A) : Async A :=
  fun w t => (t ++ [e], answer w t).

Notation "x <- c ;; k" := (bind c (fun x => k))
  (at level 61, c at next level, right associativity).
Notation "c ;;; k" := (bind c (fun _ => k))
  (at level 61, right associativity).

(** [contract.f.populateTransaction(args)]: the payload, when the world
    lets the call be encoded.  Nothing is sent. *)
Definition populateTransaction (tx : Transaction) : Async Transaction :=
  fun w t =>
    match populate_result w t tx with
    | Ok _ => (t, Ok tx)
    | Err e => (t, Err e)
    end.

Definition sendTransaction (tx : Transaction) : Async Hash :=
  call (Send tx) (fun w t => send_result w t tx).

Definition wait (hash : Hash) : Async Hash :=
  call (Wait hash) (fun w t => wait_result w t hash).

Definition console_log (line : string) : Async unit := emit (Log line).

Definition console_log_object (label : string) (hash : Hash) : Async unit :=
  emit (LogObject label hash).

Definition console_error (label text : string) : Async unit :=
  emit (LogError label text).

(** [Promise.all] of three calls: all three are issued, in the order they
    are written, and their answers awaited together.  When several fail the
    error of the leftmost is the one taken here. *)
Definition promise_all3 {A B C} (a : Async A) (b : Async B) (c : Async C)
  : Async (A * B * C) :=
  fun w t =>
    let (t1, ra) := a w t in
    let (t2, rb) := b w t1 in
    let (t3, rc) := c w t2 in
    match ra, rb, rc with
    | Ok x, Ok y, Ok z => (t3, Ok (x, y, z))
    | Err e, _, _ => (t3, Err e)
    | _, Err e, _ => (t3, Err e)
    | _, _, Err e => (t3, Err e)
    end.

(** ** Reading a trace *)

(** The transactions submitted, in order. *)
Definition submissions (t : Trace) : list Transaction :=
  flat_map (fun e => match e with Send tx => [tx] | _ => [] end) t.

(** What a submission is: an approval for a spender, the swap, the
    deposit. *)
Inductive Kind : Type :=
| Approval (spender : Address)
| SwapSubmission
| DepositSubmission.

Definition kind (tx : Transaction) : Kind :=
  match data tx with
  | approve spender _ => Approval spender
  | exactInputSingle _ => SwapSubmission
  | deposit _ _ _ _ => DepositSubmission
  end.

(** The amount a submission carries. *)
Definition amount_of (tx : Transaction) : Z :=
  match data tx with
  | approve _ amount => amount
  | exactInputSingle params => Swap.amountIn params
  | deposit _ amount _ _ => amount
  end.

(** The submissions of the supply step: the approval for the lending pool
    and the deposit. *)
Definition is_supply (tx : Transaction) : bool :=
  match data tx with
  | approve spender _ => String.eqb spender AAVE_LENDING_POOL_ADDRESS
  | exactInputSingle _ => false
  | deposit _ _ _ _ => true
  end.

(** The console, in order. *)
Definition console (t : Trace) : list Event :=
  filter (fun e => match e with
                   | Log _ | LogObject _ _ | LogError _ _ => true
                   | _ => false
                   end) t.

(** No failure was written to the console. *)
Definition reports_no_error (t : Trace) : bool :=
  forallb (fun e => match e with LogError _ _ => false | _ => true end) t.

(** Every submission is followed by a wait for inclusion before the next
    submission is issued.  [pending] tells whether a submission is still
    unconfirmed. *)
Fixpoint awaited (pending : bool) (t : Trace) : bool :=
  match t with
  | [] => true
  | Send _ :: r => negb pending && awaited true r
  | Wait _ :: r => awaited false r
  | _ :: r => awaited pending r
  end.

(** The steps of the pipeline. *)
Inductive Step : Type :=
| ApproveForSwap
| ResolvePool
| BuildSwapParams
| SubmitSwap
| Supply.

(** The address no contract lives at, which the factory returns for a pair
    without a pool. *)
Definition ZERO_ADDRESS : Address :=
  "0x0000000000000000000000000000000000000000"%string.

(** A string that starts with a minus sign. *)
Definition is_negative (a : string) : Prop :=
  exists r, a = String minus_char r.

(** A decimal numeral: digits, optionally a point and more digits, with a
    digit somewhere. *)
Definition is_numeral (a : string) : Prop :=
  exists ip fp,
    forallb is_digit ip = true /\ forallb is_digit fp = true
    /\ (ip <> [] \/ fp <> [])
    /\ (list_ascii_of_string a = ip
        \/ list_ascii_of_string a = ip ++ dot_char :: fp).

Definition is_wait (e : Event) : bool :=
  match e with Wait _ => true | _ => false end.

(** The submissions of a complete run, in order. *)
Definition plan : list Kind :=
  [ Approval SWAP_ROUTER_CONTRACT_ADDRESS; SwapSubmission;
    Approval AAVE_LENDING_POOL_ADDRESS; DepositSubmission ].

(** ** Some worlds *)

(** Every call succeeds; each submission gets a hash of its own. *)
Definition happy_world : World := {|
  signer_address := "0x5167e2"%string;
  populate_result := fun _ _ => Ok tt;
  send_result := fun _ tx =>
    Ok match kind tx with
       | Approval spender =>
           if String.eqb spender SWAP_ROUTER_CONTRACT_ADDRESS
           then "0xa1"%string else "0xa2"%string
       | SwapSubmission => "0xb1"%string
       | DepositSubmission => "0xc1"%string
       end;
  wait_result := fun _ hash => Ok hash;
  getPool_result := fun _ _ _ _ => Ok (JsStr "0x9001"%string);
  token0_result := fun _ _ => Ok (address LINK);
  token1_result := fun _ _ => Ok (address USDC);
  fee_result := fun _ _ => Ok 3000
|}.

Definition with_getPool (answer : Result JsAddr) (w : World) : World := {|
  signer_address := signer_address w;
  populate_result := populate_result w;
  send_result := send_result w;
  wait_result := wait_result w;
  getPool_result := fun _ _ _ _ => answer;
  token0_result := token0_result w;
  token1_result := token1_result w;
  fee_result := fee_result w
|}.

(** The factory knows no pool for the pair: it answers the zero address. *)
Definition no_pool_world : World :=
  with_getPool (Ok (JsStr ZERO_ADDRESS)) happy_world.

Definition network_down : JsError := mkError "network unavailable".


(** The node cannot be reached when the swap is submitted. *)
Definition swap_down_world : World := {|
  signer_address := signer_address happy_world;
  populate_result := populate_result happy_world;
  send_result := fun t tx =>
    match kind tx with
    | SwapSubmission => Err network_down
    | _ => send_result happy_world t tx
    end;
  wait_result := wait_result happy_world;
  getPool_result := getPool_result happy_world;
  token0_result := token0_result happy_world;
  token1_result := token1_result happy_world;
  fee_result := fee_result happy_world
|}.

(** ** Reading the calls of a trace *)

(** A call to the node, without its arguments and its answer. *)
Inductive CallShape : Type :=
| SendOf (k : Kind)
| WaitCall
| GetPoolCall
| Token0Call
| Token1Call
| FeeCall.

Definition shape (e : Event) : list CallShape :=
  match e with
  | Send tx => [SendOf (kind tx)]
  | Wait _ => [WaitCall]
  | GetPool _ _ _ => [GetPoolCall]
  | Token0 _ => [Token0Call]
  | Token1 _ => [Token1Call]
  | Fee _ => [FeeCall]
  | Log _ | LogObject _ _ | LogError _ _ => []
  end.

(** The calls to the node, in order. *)
Definition calls (t : Trace) : list CallShape := flat_map shape t.

(** The calls of a complete run, in order. *)
Definition full_run_calls : list CallShape :=
  [ SendOf (Approval SWAP_ROUTER_CONTRACT_ADDRESS); WaitCall;
    GetPoolCall; Token0Call; Token1Call; FeeCall;
    FeeCall;
    SendOf SwapSubmission;
    SendOf (Approval AAVE_LENDING_POOL_ADDRESS); WaitCall;
    SendOf DepositSubmission; WaitCall ].

(** The transactions the script is written to submit, for the signer of
    world [w]: an approval of the router on the input token or of the
    lending pool on the target token, the swap of the input token for the
    target token paid out to the signer, the deposit of the target token on
    behalf of the signer. *)
Definition well_formed (w : World) (tx : Transaction) : Prop :=
  match data tx with
  | approve spender _ =>
      (to tx = address USDC /\ spender = SWAP_ROUTER_CONTRACT_ADDRESS)
      \/ (to tx = address LINK /\ spender = AAVE_LENDING_POOL_ADDRESS)
  | exactInputSingle params =>
      to tx = SWAP_ROUTER_CONTRACT_ADDRESS
      /\ Swap.tokenIn params = address USDC
      /\ Swap.tokenOut params = address LINK
      /\ Swap.recipient params = signer_address w
  | deposit asset _ onBehalfOf referralCode =>
      to tx = AAVE_LENDING_POOL_ADDRESS
      /\ asset = address LINK
      /\ onBehalfOf = signer_address w
      /\ referralCode = 0
  end.

(** ** More worlds *)

(** World [w] with a pool that answers [a0] and [a1] for its tokens. *)
Definition with_pool_tokens (a0 a1 : Address) (w : World) : World := {|
  signer_address := signer_address w;
  populate_result := populate_result w;
  send_result := send_result w;
  wait_result := wait_result w;
  getPool_result := getPool_result w;
  token0_result := fun _ _ => Ok a0;
  token1_result := fun _ _ => Ok a1;
  fee_result := fee_result w
|}.

(** Transactions are accepted but their inclusion is never confirmed. *)
Definition wait_down_world : World := {|
  signer_address := signer_address happy_world;
  populate_result := populate_result happy_world;
  send_result := send_result happy_world;
  wait_result := fun _ _ => Err network_down;
  getPool_result := getPool_result happy_world;
  token0_result := token0_result happy_world;
  token1_result := token1_result happy_world;
  fee_result := fee_result happy_world
|}.

(** The pool answers 3000 to the first [fee()] read and 500 to a read that
    directly follows another one. *)
Definition fee_change_world : World := {|
  signer_address := signer_address happy_world;
  populate_result := populate_result happy_world;
  send_result := send_result happy_world;
  wait_result := wait_result happy_world;
  getPool_result := getPool_result happy_world;
  token0_result := token0_result happy_world;
  token1_result := token1_result happy_world;
  fee_result := fun t _ =>
    match rev t with
    | Fee _ :: _ => Ok 500
    | _ => Ok 3000
    end
|}.

(** ** A swap rejected on-chain *)

Definition TransactionRejected : JsError := mkError "transaction rejected".

(** The transaction submitted last in a trace. *)
Definition last_submission (t : Trace) : option Transaction :=
  fold_left (fun last e => match e with Send tx => Some tx | _ => last end)
            t None.

(** World [w] with a swap that the chain rejects after its submission was
    accepted: waiting for inclusion fails with [TransactionRejected]
    whenever the transaction submitted last is the swap, which is where a
    wait for the swap would be made.  Everything else answers as in [w]. *)
Definition with_swap_reverted (w : World) : World := {|
  signer_address := signer_address w;
  populate_result := populate_result w;
  send_result := send_result w;
  wait_result := fun t hash =>
    match last_submission t with
    | Some tx =>
        match kind tx with
        | SwapSubmission => Err TransactionRejected
        | _ => wait_result w t hash
        end
    | None => wait_result w t hash
    end;
  getPool_result := getPool_result w;
  token0_result := token0_result w;
  token1_result := token1_result w;
  fee_result := fee_result w
|}.

Definition rule : string := "-------------------------------"%string.

Section Script.

(** The largest precision the codec supports.  The specification names no
    number; it only requires that every precision up to 18 is supported
    (hypothesis [MAX_PRECISION_ge_18], where it is needed). *)
Variable MAX_PRECISION : nat.

(** Modelled from the spec: the entry point of [ethers.parseUnits]
    ([toBaseUnits]), absent from the sources; it checks the precision
    against the supported bound and reads the numeral with
    [parse_digits]. *)
Definition parseUnits (value : string) (unit : nat) : Result Z :=
  if (MAX_PRECISION <? unit)%nat then Err InvalidAmount
  else parse_digits (list_ascii_of_string value) unit.

(** Part A.  [amount] is the caller's amount after [toString()]; the
    wallet is the signer of the world, and the ABI has no counterpart. *)
Definition approveToken (tokenAddress : Address) (amount : string)
  : Async unit :=
  try_catch
    (approveAmount <- lift (parseUnits amount (decimals USDC)) ;;
     approveTransaction <-
       populateTransaction
         {| to := tokenAddress;
            data := approve SWAP_ROUTER_CONTRACT_ADDRESS approveAmount |} ;;
     transactionResponse <- sendTransaction approveTransaction ;;
     console_log rule ;;;
     console_log "Sending Approval Transaction..." ;;;
     console_log rule ;;;
     console_log ("Transaction Sent: " ++ transactionResponse) ;;;
     console_log rule ;;;
     receipt <- wait transactionResponse ;;
     console_log
       ("Approval Transaction Confirmed! https://sepolia.etherscan.io/tx/"
        ++ receipt))
    (fun error =>
       console_error "An error occurred during token approval:"
                     (message error) ;;;
       throw (mkError "Token approval failed")).

(** Part B *)
Definition getPoolInfo (tokenIn tokenOut : Token) : Async Pool.Info :=
  poolAddress <-
    call (GetPool (address tokenIn) (address tokenOut) 3000)
         (fun w t =>
            getPool_result w t (address tokenIn) (address tokenOut) 3000) ;;
  match poolAddress with
  | JsStr poolContract =>
      if truthy poolAddress then
        r <- promise_all3
               (call (Token0 poolContract)
                     (fun w t => token0_result w t poolContract))
               (call (Token1 poolContract)
                     (fun w t => token1_result w t poolContract))
               (call (Fee poolContract)
                     (fun w t => fee_result w t poolContract)) ;;
        let '(token0, token1, fee) := r in
        ret {| Pool.poolContract := poolContract;
               Pool.token0 := token0;
               Pool.token1 := token1;
               Pool.fee := fee |}
      else throw (mkError "Failed to get pool address")
  | JsNull => throw (mkError "Failed to get pool address")
  end.

(** Part C *)
Definition prepareSwapParams (poolContract : Address) (amountIn : Z)
  : Async Swap.Params :=
  fee <- call (Fee poolContract) (fun w t => fee_result w t poolContract) ;;
  fun w =>
    ret {| Swap.tokenIn := address USDC;
           Swap.tokenOut := address LINK;
           Swap.fee := fee;
           Swap.recipient := signer_address w;
           Swap.amountIn := amountIn;
           Swap.amountOutMinimum := 0;
           Swap.sqrtPriceLimitX96 := 0 |} w.

(** Part D *)
Definition executeSwap (swapRouter : Address) (params : Swap.Params)
  : Async unit :=
  transaction <-
    populateTransaction
      {| to := swapRouter; data := exactInputSingle params |} ;;
  receipt <- sendTransaction transaction ;;
  console_log rule ;;;
  console_log ("Receipt: https://sepolia.etherscan.io/tx/" ++ receipt) ;;;
  console_log rule.

(** Part E.  The contract method [aaveLendingPool.deposit(...)] encodes
    and submits in one call. *)
Definition supplyToAave (tokenAddress : Address) (amount : Z) : Async unit :=
  try_catch
    (approveTransaction <-
       populateTransaction
         {| to := tokenAddress;
            data := approve AAVE_LENDING_POOL_ADDRESS amount |} ;;
     approvalResponse <- sendTransaction approveTransaction ;;
     wait approvalResponse ;;;
     supplyTransaction <-
       (fun w =>
          sendTransaction
            {| to := AAVE_LENDING_POOL_ADDRESS;
               data := deposit tokenAddress amount (signer_address w) 0 |}
            w) ;;
     console_log_object "Supply Transaction:" supplyTransaction ;;;
     supplyResponse <- wait supplyTransaction ;;
     console_log_object "Supply Response:" supplyResponse ;;;
     console_log
       ("Successfully supplied " ++ formatUnits amount (decimals LINK)
        ++ " LINK to Aave.") ;;;
     console_log
       ("Transaction Hash: https://sepolia.etherscan.io/tx/"
        ++ supplyTransaction))
    (fun error =>
       console_error "An error occurred while supplying tokens to Aave:"
                     (message error) ;;;
       throw (mkError "Aave supply failed")).

(** Part F.  [swapAmount] is the caller's amount after [toString()]. *)
Definition main (swapAmount : string) : Async unit :=
  let inputAmount := swapAmount in
  amountIn <- lift (parseUnits inputAmount (decimals USDC)) ;;
  try_catch
    (approveToken (address USDC) inputAmount ;;;
     info <- getPoolInfo USDC LINK ;;
     params <- prepareSwapParams (Pool.poolContract info) amountIn ;;
     executeSwap SWAP_ROUTER_CONTRACT_ADDRESS params ;;;
     let amountOut := Swap.amountIn params in
     supplyToAave (address LINK) amountOut)
    (fun error => console_error "An error occurred:" (message error)).

(** A run of the script from an empty trace. *)
Definition run (w : World) (swapAmount : string) : Trace * Result unit :=
  main swapAmount w [].

(** The pipeline fails at step [s], with trace [t] up to the failure and
    error [e] thrown by the step: the steps before it returned, in the
    order [main] runs them, and step [s] threw.  These are the failures the
    script sees.  A transaction that is rejected on-chain after its
    submission was accepted makes a step throw only where the script waits
    for it; the swap is never waited for. *)
Definition fails_at (w : World) (a : string) (amt : Z) (s : Step)
           (t : Trace) (e : JsError) : Prop :=
  match s with
  | ApproveForSwap => approveToken (address USDC) a w [] = (t, Err e)
  | ResolvePool =>
      exists t1,
        approveToken (address USDC) a w [] = (t1, Ok tt)
        /\ getPoolInfo USDC LINK w t1 = (t, Err e)
  | BuildSwapParams =>
      exists t1 t2 info,
        approveToken (address USDC) a w [] = (t1, Ok tt)
        /\ getPoolInfo USDC LINK w t1 = (t2, Ok info)
        /\ prepareSwapParams (Pool.poolContract info) amt w t2 = (t, Err e)
  | SubmitSwap =>
      exists t1 t2 info t3 params,
        approveToken (address USDC) a w [] = (t1, Ok tt)
        /\ getPoolInfo USDC LINK w t1 = (t2, Ok info)
        /\ prepareSwapParams (Pool.poolContract info) amt w t2
           = (t3, Ok params)
        /\ executeSwap SWAP_ROUTER_CONTRACT_ADDRESS params w t3 = (t, Err e)
  | Supply =>
      exists t1 t2 info t3 params t4,
        approveToken (address USDC) a w [] = (t1, Ok tt)
        /\ getPoolInfo USDC LINK w t1 = (t2, Ok info)
        /\ prepareSwapParams (Pool.poolContract info) amt w t2
           = (t3, Ok params)
        /\ executeSwap SWAP_ROUTER_CONTRACT_ADDRESS params w t3 = (t4, Ok tt)
        /\ supplyToAave (address LINK) (Swap.amountIn params) w t4
           = (t, Err e)
  end.



(** Symbolic execution of the script: unfold it, then split on the answer
    of the world at each call, in the order the calls are made. *)
Ltac unfold_script :=
  unfold run, main, approveToken, getPoolInfo, prepareSwapParams,
    executeSwap, supplyToAave, sendTransaction, wait, populateTransaction,
    console_log, console_log_object, console_error, promise_all3,
    try_catch, bind, lift, call, emit, ret, throw;
  change (decimals USDC) with 6%nat; change (decimals LINK) with 18%nat.

Ltac answer :=
  match goal with
  | |- context [match populate_result ?w ?t ?x with _ => _ end] =>
      destruct (populate_result w t x) as [[] | ?e] eqn:?
  | |- context [match send_result ?w ?t ?x with _ => _ end] =>
      destruct (send_result w t x) as [?hash | ?e] eqn:?
  | |- context [match wait_result ?w ?t ?x with _ => _ end] =>
      destruct (wait_result w t x) as [?receipt | ?e] eqn:?
  | |- context [match getPool_result ?w ?t ?a ?b ?f with _ => _ end] =>
      destruct (getPool_result w t a b f) as [[| ?pool] | ?e] eqn:?
  | |- context [match token0_result ?w ?t ?x with _ => _ end] =>
      destruct (token0_result w t x) as [?tok0 | ?e] eqn:?
  | |- context [match token1_result ?w ?t ?x with _ => _ end] =>
      destruct (token1_result w t x) as [?tok1 | ?e] eqn:?
  | |- context [match fee_result ?w ?t ?x with _ => _ end] =>
      destruct (fee_result w t x) as [?fee | ?e] eqn:?
  | |- context [if truthy ?v then _ else _] =>
      destruct (truthy v) eqn:?
  end.

Ltac execute := repeat (cbv beta iota zeta; try answer).

(** * Digits *)

Lemma is_digit_not_dot c : is_digit c = true -> Ascii.eqb c dot_char = false.
Proof. destruct c as [[] [] [] [] [] [] [] []]; vm_compute; congruence. Qed.

Lemma is_digit_not_minus c : is_digit c = true -> c <> minus_char.
Proof. destruct c as [[] [] [] [] [] [] [] []]; vm_compute; congruence. Qed.

Lemma digit_char_val c : is_digit c = true -> digit_char (digit_val c) = c.
Proof. destruct c as [[] [] [] [] [] [] [] []]; vm_compute; congruence. Qed.

Lemma digit_val_range c : is_digit c = true -> 0 <= digit_val c < 10.
Proof.
  destruct c as [[] [] [] [] [] [] [] []]; vm_compute; intuition congruence.
Qed.

Lemma digit_val_zero c :
  is_digit c = true -> digit_val c = 0 -> c = zero_char.
Proof. destruct c as [[] [] [] [] [] [] [] []]; vm_compute; congruence. Qed.

Lemma small_cases d :
  0 <= d < 10 ->
  d = 0 \/ d = 1 \/ d = 2 \/ d = 3 \/ d = 4 \/
  d = 5 \/ d = 6 \/ d = 7 \/ d = 8 \/ d = 9.
Proof. lia. Qed.

Lemma digit_val_char d : 0 <= d < 10 -> digit_val (digit_char d) = d.
Proof.
  intros H. destruct (small_cases d H) as [E | H']; [subst; reflexivity |].
  repeat (destruct H' as [E | H']; [subst; reflexivity |]). subst; reflexivity.
Qed.

Lemma is_digit_char d : 0 <= d < 10 -> is_digit (digit_char d) = true.
Proof.
  intros H. destruct (small_cases d H) as [E | H']; [subst; reflexivity |].
  repeat (destruct H' as [E | H']; [subst; reflexivity |]). subst; reflexivity.
Qed.

Lemma fold_num ds acc :
  fold_left (fun a c => 10 * a + digit_val c) ds acc
  = acc * 10 ^ Z.of_nat (List.length ds) + num ds.
Proof.
  unfold num. revert acc. induction ds as [| c ds IH]; intros acc.
  - simpl. lia.
  - cbn [fold_left List.length]. rewrite IH, (IH (10 * 0 + digit_val c)).
    rewrite Nat2Z.inj_succ, Z.pow_succ_r by lia. lia.
Qed.

Lemma num_app a b :
  num (a ++ b) = num a * 10 ^ Z.of_nat (List.length b) + num b.
Proof. unfold num at 1. rewrite fold_left_app, fold_num. reflexivity. Qed.

Lemma num_snoc a c : num (a ++ [c]) = 10 * num a + digit_val c.
Proof. unfold num. rewrite fold_left_app. reflexivity. Qed.

Lemma num_cons c l :
  num (c :: l) = digit_val c * 10 ^ Z.of_nat (List.length l) + num l.
Proof. unfold num at 1. cbn [fold_left]. rewrite fold_num. lia. Qed.

Lemma num_zeros k : num (zeros k) = 0.
Proof.
  induction k as [| k IH]; [reflexivity |].
  unfold zeros in *. cbn [repeat]. rewrite num_cons, IH. reflexivity.
Qed.

Lemma length_zeros k : List.length (zeros k) = k.
Proof. apply repeat_length. Qed.

Lemma num_zeros_app k l : num (zeros k ++ l) = num l.
Proof. rewrite num_app, num_zeros. lia. Qed.

Lemma num_app_zeros l k : num (l ++ zeros k) = num l * 10 ^ Z.of_nat k.
Proof. rewrite num_app, num_zeros, length_zeros. lia. Qed.

Lemma num_nonneg l : forallb is_digit l = true -> 0 <= num l.
Proof.
  induction l as [| c l IH] using rev_ind; intros H; [reflexivity |].
  rewrite forallb_app in H. apply andb_true_iff in H as [H1 H2].
  cbn in H2. rewrite andb_true_r in H2.
  rewrite num_snoc. pose proof (digit_val_range c H2). specialize (IH H1). lia.
Qed.

Lemma digits_aux_S f n acc :
  digits_aux (S f) n acc
  = if n <? 10 then digit_char (n mod 10) :: acc
    else digits_aux f (n / 10) (digit_char (n mod 10) :: acc).
Proof. reflexivity. Qed.

Lemma digits_aux_acc f : forall n acc,
  digits_aux f n acc = digits_aux f n [] ++ acc.
Proof.
  induction f as [| f IH]; intros n acc; [reflexivity |].
  cbn [digits_aux]. destruct (n <? 10); [reflexivity |].
  rewrite IH, (IH _ [_]), <- app_assoc. reflexivity.
Qed.

Lemma digits_aux_fuel f1 : forall f2 n acc,
  0 <= n < 10 ^ Z.of_nat (S f1) -> n < 10 ^ Z.of_nat (S f2) ->
  digits_aux (S f1) n acc = digits_aux (S f2) n acc.
Proof.
  induction f1 as [| f1 IH]; intros f2 n acc H1 H2.
  - change (10 ^ Z.of_nat 1) with 10 in H1.
    cbn [digits_aux]. destruct (Z.ltb_spec n 10); [reflexivity | lia].
  - cbn [digits_aux]. destruct (Z.ltb_spec n 10) as [Hn | Hn]; [reflexivity |].
    rewrite (Nat2Z.inj_succ (S f1)), Z.pow_succ_r in H1 by lia.
    rewrite (Nat2Z.inj_succ f2), Z.pow_succ_r in H2 by lia.
    destruct f2 as [| f2]; [change (10 ^ Z.of_nat 0) with 1 in H2; lia |].
    apply IH.
    + split; [apply Z.div_pos; lia | apply Z.div_lt_upper_bound; lia].
    + apply Z.div_lt_upper_bound; lia.
Qed.

Lemma digits_fuel_enough n : 0 <= n -> n < 10 ^ Z.of_nat (S (Z.to_nat (Z.log2 n))).
Proof.
  intros Hn. rewrite Nat2Z.inj_succ, Z2Nat.id by apply Z.log2_nonneg.
  destruct (Z.eq_dec n 0) as [-> | Hz]; [reflexivity |].
  apply Z.lt_le_trans with (2 ^ Z.succ (Z.log2 n)).
  - apply Z.log2_spec. lia.
  - apply Z.pow_le_mono_l. lia.
Qed.

Lemma digits_small d : 0 <= d < 10 -> digits d = [digit_char d].
Proof.
  intros H. unfold digits. cbn [digits_aux].
  destruct (Z.ltb_spec d 10); [| lia]. rewrite Z.mod_small by lia. reflexivity.
Qed.

Lemma digits_step m d :
  0 < m -> 0 <= d < 10 -> digits (10 * m + d) = digits m ++ [digit_char d].
Proof.
  intros Hm Hd. unfold digits at 1.
  assert (Hlog : Z.log2 (10 * m + d) = Z.succ (Z.log2 (10 * m + d) - 1)) by lia.
  assert (Hpos : 0 <= Z.log2 (10 * m + d) - 1).
  { assert (Z.log2 2 <= Z.log2 (10 * m + d)) by (apply Z.log2_le_mono; lia).
    change (Z.log2 2) with 1 in H. lia. }
  rewrite Hlog, Z2Nat.inj_succ by lia.
  remember (Z.to_nat (Z.log2 (10 * m + d) - 1)) as k eqn:Hk.
  rewrite digits_aux_S. destruct (Z.ltb_spec (10 * m + d) 10); [lia |].
  replace ((10 * m + d) mod 10) with d
    by (symmetry; rewrite Z.add_comm, Z.mul_comm, Z.mod_add by lia;
        apply Z.mod_small; lia).
  replace ((10 * m + d) / 10) with m
    by (symmetry; rewrite Z.add_comm, Z.mul_comm, Z.div_add by lia;
        rewrite Z.div_small by lia; lia).
  rewrite digits_aux_acc. f_equal. unfold digits.
  apply digits_aux_fuel.
  - split; [lia |].
    pose proof (digits_fuel_enough (10 * m + d) ltac:(lia)) as Hf.
    rewrite Hlog, Z2Nat.inj_succ, <- Hk in Hf by lia.
    rewrite (Nat2Z.inj_succ (S k)), Z.pow_succ_r in Hf by lia. lia.
  - apply digits_fuel_enough. lia.
Qed.

Lemma decompose_base10 n :
  10 <= n -> exists m d, n = 10 * m + d /\ 0 < m < n /\ 0 <= d < 10.
Proof.
  intros H. exists (n / 10), (n mod 10).
  pose proof (Z.div_mod n 10 ltac:(lia)).
  pose proof (Z.mod_pos_bound n 10 ltac:(lia)).
  repeat split; try lia.
Qed.

Lemma num_digits n : 0 <= n -> num (digits n) = n.
Proof.
  revert n. apply (Zlt_0_ind (fun n => num (digits n) = n)).
  intros n IH Hn. destruct (Z_lt_le_dec n 10) as [Hs | Hb].
  - rewrite digits_small by lia. unfold num. cbn [fold_left].
    rewrite digit_val_char by lia. lia.
  - destruct (decompose_base10 n Hb) as (m & d & -> & Hm & Hd).
    rewrite digits_step, num_snoc, IH, digit_val_char by lia. reflexivity.
Qed.

Lemma digits_are_digits n : 0 <= n -> forallb is_digit (digits n) = true.
Proof.
  revert n. apply (Zlt_0_ind (fun n => forallb is_digit (digits n) = true)).
  intros n IH Hn. destruct (Z_lt_le_dec n 10) as [Hs | Hb].
  - rewrite digits_small by lia. cbn. rewrite is_digit_char by lia. reflexivity.
  - destruct (decompose_base10 n Hb) as (m & d & -> & Hm & Hd).
    rewrite digits_step, forallb_app, IH by lia. cbn.
    rewrite is_digit_char by lia. reflexivity.
Qed.

Lemma digits_nonempty n : 0 <= n -> digits n <> [].
Proof.
  intros Hn. destruct (Z_lt_le_dec n 10) as [Hs | Hb].
  - rewrite digits_small by lia. discriminate.
  - destruct (decompose_base10 n Hb) as (m & d & -> & Hm & Hd).
    rewrite digits_step by lia. destruct (digits m); discriminate.
Qed.

Lemma num_pos_of_head c l :
  is_digit c = true -> c <> zero_char -> forallb is_digit l = true ->
  0 < num (c :: l).
Proof.
  intros Hc Hz Hl. rewrite num_cons.
  pose proof (digit_val_range c Hc). pose proof (num_nonneg l Hl).
  assert (digit_val c <> 0) by (intros E; apply Hz, digit_val_zero; assumption).
  assert (0 < 10 ^ Z.of_nat (List.length l)) by (apply Z.pow_pos_nonneg; lia).
  nia.
Qed.

Lemma digits_num l : canonical l = true -> digits (num l) = l.
Proof.
  induction l as [| c l IH] using rev_ind; [discriminate |].
  unfold canonical. intros H. apply andb_true_iff in H as [Hd Hh].
  rewrite forallb_app in Hd. apply andb_true_iff in Hd as [Hl Hc].
  cbn in Hc. rewrite andb_true_r in Hc.
  rewrite num_snoc. destruct l as [| a l].
  - change (num []) with 0. rewrite Z.mul_0_r, Z.add_0_l.
    rewrite digits_small by (apply digit_val_range; assumption).
    rewrite digit_char_val by assumption. reflexivity.
  - assert (Ha : a <> zero_char).
    { cbn in Hh. destruct l; cbn in Hh;
        apply negb_true_iff, Ascii.eqb_neq in Hh; exact Hh. }
    assert (Hcan : canonical (a :: l) = true).
    { unfold canonical. rewrite Hl. cbn [andb].
      destruct l; [reflexivity |]. apply negb_true_iff, Ascii.eqb_neq, Ha. }
    cbn [forallb] in Hl. apply andb_true_iff in Hl as [Hda Hl].
    rewrite digits_step.
    + rewrite IH, digit_char_val by assumption. reflexivity.
    + apply num_pos_of_head; assumption.
    + apply digit_val_range; assumption.
Qed.

(** * Cutting at the point, trimming zeros *)

Lemma split_dot_digits ip :
  forallb is_digit ip = true ->
  split_dot ip = (ip, None)
  /\ forall fp, split_dot (ip ++ dot_char :: fp) = (ip, Some fp).
Proof.
  induction ip as [| c ip IH]; intros H.
  - split; [reflexivity | intros fp; reflexivity].
  - cbn [forallb] in H. apply andb_true_iff in H as [Hc Hip].
    destruct (IH Hip) as [IH1 IH2]. split; [| intros fp]; cbn [split_dot app];
      rewrite (is_digit_not_dot c Hc); [rewrite IH1 | rewrite IH2]; reflexivity.
Qed.

Lemma split_dot_inv s : forall ip ofp,
  split_dot s = (ip, ofp) ->
  s = match ofp with None => ip | Some fp => ip ++ dot_char :: fp end.
Proof.
  induction s as [| c s IH]; intros ip ofp H; cbn [split_dot] in H.
  - injection H as <- <-. reflexivity.
  - destruct (Ascii.eqb_spec c dot_char) as [-> | Hc].
    + injection H as <- <-. reflexivity.
    + destruct (split_dot s) as [ip' ofp'] eqn:E. injection H as <- <-.
      rewrite (IH ip' ofp' eq_refl). destruct ofp'; reflexivity.
Qed.

Lemma strip_zeros k : strip_trailing_zeros (zeros k) = [].
Proof.
  induction k as [| k IH]; [reflexivity |].
  unfold zeros in *. cbn [repeat strip_trailing_zeros]. rewrite IH. reflexivity.
Qed.

Lemma strip_app_zeros l k :
  strip_trailing_zeros (l ++ zeros k) = strip_trailing_zeros l.
Proof.
  induction l as [| c l IH]; [apply strip_zeros |].
  cbn [app strip_trailing_zeros]. rewrite IH. reflexivity.
Qed.

Lemma strip_restore l :
  strip_trailing_zeros l
    ++ zeros (List.length l - List.length (strip_trailing_zeros l)) = l
  /\ (List.length (strip_trailing_zeros l) <= List.length l)%nat.
Proof.
  induction l as [| c l [IH1 IH2]]; [split; reflexivity |].
  cbn [strip_trailing_zeros]. destruct (strip_trailing_zeros l) as [| d r] eqn:E.
  - cbn [List.length app] in IH1. rewrite Nat.sub_0_r in IH1.
    destruct (Ascii.eqb_spec c zero_char) as [-> | Hc].
    + split; [| cbn; lia]. cbn [List.length app]. rewrite Nat.sub_0_r.
      unfold zeros in *. cbn [repeat]. rewrite IH1. reflexivity.
    + split; [| cbn; lia]. cbn [List.length app].
      replace (S (List.length l) - 1)%nat with (List.length l) by lia.
      rewrite IH1. reflexivity.
  - split; [| cbn [List.length] in *; lia].
    cbn [List.length app] in *. rewrite Nat.sub_succ. rewrite IH1. reflexivity.
Qed.

Lemma strip_idem l :
  strip_trailing_zeros (strip_trailing_zeros l) = strip_trailing_zeros l.
Proof.
  induction l as [| c l IH]; [reflexivity |].
  cbn [strip_trailing_zeros]. destruct (strip_trailing_zeros l) as [| d r] eqn:E.
  - destruct (Ascii.eqb_spec c zero_char) as [-> | Hc]; [reflexivity |].
    cbn. destruct (Ascii.eqb_spec c zero_char); [contradiction | reflexivity].
  - cbn [strip_trailing_zeros]. cbn [strip_trailing_zeros] in IH.
    rewrite IH. reflexivity.
Qed.

Lemma strip_digits l :
  forallb is_digit l = true -> forallb is_digit (strip_trailing_zeros l) = true.
Proof.
  intros H. destruct (strip_restore l) as [E _]. rewrite <- E in H.
  rewrite forallb_app in H. apply andb_true_iff in H as [H _]. exact H.
Qed.

Lemma strip_trim l :
  strip_trailing_zeros (trim_fraction l) = strip_trailing_zeros l.
Proof.
  unfold trim_fraction. destruct (strip_trailing_zeros l) as [| d r] eqn:E.
  - reflexivity.
  - rewrite <- E. apply strip_idem.
Qed.

Lemma trim_restore l :
  l <> [] ->
  trim_fraction l ++ zeros (List.length l - List.length (trim_fraction l)) = l
  /\ (List.length (trim_fraction l) <= List.length l)%nat.
Proof.
  intros Hl. destruct (strip_restore l) as [E Hle]. unfold trim_fraction.
  destruct (strip_trailing_zeros l) as [| d r] eqn:Es; [| split; assumption].
  cbn [List.length app] in E. rewrite Nat.sub_0_r in E.
  destruct l as [| c l]; [contradiction |]. split; [| cbn; lia].
  cbn [List.length] in *. unfold zeros in *. cbn [repeat] in E.
  injection E as <- E. cbn [app List.length]. rewrite Nat.sub_succ, Nat.sub_0_r.
  rewrite E. reflexivity.
Qed.

Lemma trim_digits l :
  forallb is_digit l = true -> forallb is_digit (trim_fraction l) = true.
Proof.
  intros H. unfold trim_fraction. pose proof (strip_digits l H) as Hs.
  destruct (strip_trailing_zeros l); [reflexivity | exact Hs].
Qed.

(** * The codec on digit strings *)

Lemma digit_val_zero_char : digit_val zero_char = 0.
Proof. reflexivity. Qed.

Lemma pad_digits_num R :
  forallb is_digit R = true ->
  pad_left (S (List.length R)) (digits (num R)) = zero_char :: R.
Proof.
  induction R as [| c R IH]; intros H; [reflexivity |].
  cbn [forallb] in H. apply andb_true_iff in H as [Hc HR].
  destruct (Ascii.eqb_spec c zero_char) as [-> | Hz].
  - rewrite num_cons, digit_val_zero_char, Z.mul_0_l, Z.add_0_l.
    specialize (IH HR). unfold pad_left in *.
    assert (Hlen : (List.length (digits (num R)) <= S (List.length R))%nat).
    { apply (f_equal (@List.length ascii)) in IH.
      rewrite length_app, length_zeros in IH. cbn [List.length] in IH. lia. }
    cbn [List.length].
    replace (S (S (List.length R)) - List.length (digits (num R)))%nat
      with (S (S (List.length R) - List.length (digits (num R)))) by lia.
    unfold zeros in *. cbn [repeat app]. rewrite IH. reflexivity.
  - rewrite digits_num.
    + unfold pad_left. cbn [List.length].
      replace (S (S (List.length R)) - S (List.length R))%nat with 1%nat by lia.
      reflexivity.
    + unfold canonical. cbn [forallb]. rewrite Hc, HR. cbn [andb].
      destruct R; [reflexivity |]. apply negb_true_iff, Ascii.eqb_neq, Hz.
Qed.

Lemma canonical_cases ip :
  canonical ip = true ->
  forallb is_digit ip = true
  /\ (ip = [zero_char]
      \/ exists c r, ip = c :: r /\ c <> zero_char).
Proof.
  unfold canonical. intros H. apply andb_true_iff in H as [Hd Hh].
  split; [exact Hd |]. destruct ip as [| c r]; [discriminate |].
  destruct (Ascii.eqb_spec c zero_char) as [-> | Hz].
  - left. destruct r; [reflexivity | discriminate].
  - right. exists c, r. split; [reflexivity | exact Hz].
Qed.

Lemma pad_canonical_app ip R :
  canonical ip = true -> forallb is_digit R = true ->
  pad_left (S (List.length R)) (digits (num (ip ++ R))) = ip ++ R.
Proof.
  intros Hip HR. destruct (canonical_cases ip Hip) as [Hd [-> | (c & r & -> & Hz)]].
  - cbn [app]. rewrite num_cons, digit_val_zero_char, Z.mul_0_l, Z.add_0_l.
    apply pad_digits_num, HR.
  - rewrite digits_num.
    + unfold pad_left. rewrite length_app. cbn [List.length].
      replace (S (List.length R) - (S (List.length r) + List.length R))%nat
        with 0%nat by lia.
      reflexivity.
    + unfold canonical. rewrite forallb_app, Hd, HR. cbn [andb app].
      destruct (r ++ R); [reflexivity |]. apply negb_true_iff, Ascii.eqb_neq, Hz.
Qed.

Lemma format_of_parts ip R :
  canonical ip = true -> forallb is_digit R = true -> R <> [] ->
  format_digits (num (ip ++ R)) (List.length R)
  = ip ++ dot_char :: trim_fraction R.
Proof.
  intros Hip HR Hne. unfold format_digits.
  destruct (List.length R) as [| k] eqn:Hlen; [destruct R; [contradiction | discriminate] |].
  rewrite <- Hlen, pad_canonical_app by assumption.
  rewrite length_app, Nat.add_sub.
  rewrite firstn_app, firstn_all, Nat.sub_diag, firstn_O, app_nil_r.
  rewrite skipn_app, skipn_all, Nat.sub_diag, skipn_O. reflexivity.
Qed.

Lemma parse_of_parts ip fp precision :
  forallb is_digit ip = true -> forallb is_digit fp = true ->
  ip <> [] -> (List.length fp <= precision)%nat ->
  parse_digits (ip ++ dot_char :: fp) precision
  = Ok (num (ip ++ fp ++ zeros (precision - List.length fp))).
Proof.
  intros Hip Hfp Hne Hlen. unfold parse_digits.
  destruct (split_dot_digits ip Hip) as [_ ->]. rewrite Hip, Hfp. cbn [andb].
  destruct (Nat.ltb_spec 0 (List.length ip + List.length fp)) as [_ | H0];
    [| destruct ip; [contradiction | cbn in H0; lia]].
  destruct (Nat.leb_spec (List.length fp) precision); [reflexivity | lia].
Qed.

Lemma parse_of_whole ip precision :
  forallb is_digit ip = true -> ip <> [] ->
  parse_digits ip precision = Ok (num (ip ++ zeros precision)).
Proof.
  intros Hip Hne. unfold parse_digits.
  destruct (split_dot_digits ip Hip) as [-> _]. rewrite Hip. cbn [andb forallb].
  destruct (Nat.ltb_spec 0 (List.length ip + @List.length ascii [])) as [_ | H0];
    [| destruct ip; [contradiction | cbn in H0; lia]].
  cbn [List.length Nat.leb app]. rewrite Nat.sub_0_r. reflexivity.
Qed.

(** Reading back what [format_digits] wrote returns the integer. *)
Lemma parse_format_digits n unit :
  0 <= n -> parse_digits (format_digits n unit) unit = Ok n.
Proof.
  intros Hn. pose proof (digits_are_digits n Hn) as Hd.
  pose proof (digits_nonempty n Hn) as Hne.
  destruct unit as [| u].
  - cbn [format_digits]. rewrite parse_of_whole by assumption.
    cbn [zeros repeat]. rewrite app_nil_r. apply f_equal, num_digits, Hn.
  - cbn [format_digits].
    set (ds := pad_left (S (S u)) (digits n)).
    assert (Hds : forallb is_digit ds = true).
    { unfold ds, pad_left. rewrite forallb_app, Hd, andb_true_r.
      apply forallb_forall. intros x Hx. apply repeat_spec in Hx. subst. reflexivity. }
    assert (Hlen : (S (S u) <= List.length ds)%nat).
    { unfold ds, pad_left. rewrite length_app, length_zeros. lia. }
    assert (Hnum : num ds = n).
    { unfold ds, pad_left. rewrite num_zeros_app. apply num_digits, Hn. }
    set (k := (List.length ds - S u)%nat).
    assert (Hsplit : firstn k ds ++ skipn k ds = ds) by apply firstn_skipn.
    assert (Hfl : List.length (skipn k ds) = S u)
      by (rewrite length_skipn; unfold k; lia).
    assert (Hfi : forallb is_digit (firstn k ds) = true
                  /\ forallb is_digit (skipn k ds) = true).
    { rewrite <- Hsplit, forallb_app in Hds. apply andb_true_iff, Hds. }
    destruct Hfi as [Hfi Hsk].
    assert (Hskne : skipn k ds <> []) by (destruct (skipn k ds); discriminate).
    destruct (trim_restore _ Hskne) as [Hres Hle].
    rewrite parse_of_parts.
    + rewrite <- Hfl at 1. rewrite Hres, Hsplit, Hnum. reflexivity.
    + exact Hfi.
    + apply trim_digits, Hsk.
    + intros E. apply (f_equal (@List.length ascii)) in E.
      rewrite length_firstn in E. cbn [List.length] in E. unfold k in E. lia.
    + lia.
Qed.

Lemma parse_digits_valid s precision ip ofp :
  split_dot s = (ip, ofp) ->
  forallb is_digit ip = true -> ip <> [] ->
  forallb is_digit (match ofp with Some fp => fp | None => [] end) = true ->
  (List.length (match ofp with Some fp => fp | None => [] end) <= precision)%nat ->
  parse_digits s precision
  = Ok (num (ip ++ (match ofp with Some fp => fp | None => [] end)
                ++ zeros (precision
                          - List.length (match ofp with Some fp => fp | None => [] end)))).
Proof.
  intros Hs Hip Hne Hfp Hlen. rewrite (split_dot_inv s ip ofp Hs).
  destruct ofp as [fp |].
  - apply parse_of_parts; assumption.
  - cbn [app List.length]. rewrite Nat.sub_0_r. apply parse_of_whole; assumption.
Qed.

(** Writing what [parse_digits] read gives the numeral back, up to the
    zeros that end its fraction. *)
Lemma format_parse_digits s precision ip ofp :
  split_dot s = (ip, ofp) ->
  canonical ip = true ->
  forallb is_digit (match ofp with Some fp => fp | None => [] end) = true ->
  (List.length (match ofp with Some fp => fp | None => [] end) <= precision)%nat ->
  exists n,
    parse_digits s precision = Ok n /\ 0 <= n
    /\ normalize_digits (format_digits n precision) = normalize_digits s.
Proof.
  intros Hs Hcan Hfp Hlen.
  destruct (canonical_cases ip Hcan) as [Hip Hshape].
  assert (Hne : ip <> []) by (destruct Hshape as [-> | (c & r & -> & _)]; discriminate).
  set (fp := match ofp with Some fp => fp | None => [] end) in *.
  set (R := fp ++ zeros (precision - List.length fp)).
  assert (HR : forallb is_digit R = true).
  { unfold R. rewrite forallb_app, Hfp. cbn [andb].
    apply forallb_forall. intros x Hx. apply repeat_spec in Hx. subst. reflexivity. }
  assert (HRlen : List.length R = precision)
    by (unfold R; rewrite length_app, length_zeros; lia).
  exists (num (ip ++ R)). split; [| split].
  - apply (parse_digits_valid s precision ip ofp); assumption.
  - apply num_nonneg. rewrite forallb_app, Hip, HR. reflexivity.
  - assert (Hnorm_s : normalize_digits s
                      = match strip_trailing_zeros fp with
                        | [] => ip
                        | fp' => ip ++ dot_char :: fp'
                        end).
    { unfold normalize_digits. rewrite Hs. unfold fp.
      destruct ofp; [reflexivity |]. reflexivity. }
    rewrite Hnorm_s. destruct precision as [| k].
    + assert (Hfp0 : fp = []) by (destruct fp; [reflexivity | cbn in Hlen; lia]).
      rewrite Hfp0. destruct R; [| discriminate]. rewrite app_nil_r.
      cbn [format_digits strip_trailing_zeros]. rewrite digits_num by assumption.
      unfold normalize_digits. destruct (split_dot_digits ip Hip) as [-> _].
      reflexivity.
    + rewrite <- HRlen at 1. rewrite format_of_parts;
        [| assumption | assumption | destruct R; discriminate].
      unfold normalize_digits. destruct (split_dot_digits ip Hip) as [_ ->].
      rewrite strip_trim. unfold R. rewrite strip_app_zeros. reflexivity.
Qed.

(** What [parse_digits] accepts is a decimal numeral. *)
Lemma parse_digits_inv s precision n :
  parse_digits s precision = Ok n ->
  exists ip fp,
    forallb is_digit ip = true /\ forallb is_digit fp = true
    /\ (ip <> [] \/ fp <> [])
    /\ (List.length fp <= precision)%nat
    /\ (s = ip \/ s = ip ++ dot_char :: fp)
    /\ n = num (ip ++ fp ++ zeros (precision - List.length fp)).
Proof.
  unfold parse_digits. destruct (split_dot s) as [ip ofp] eqn:Hs.
  set (fp := match ofp with Some fp => fp | None => [] end).
  destruct (forallb is_digit ip) eqn:Hip; [| discriminate].
  destruct (forallb is_digit fp) eqn:Hfp; [| discriminate].
  cbn [andb].
  destruct (Nat.ltb_spec 0 (List.length ip + List.length fp)) as [H0 | H0];
    [| discriminate].
  destruct (Nat.leb_spec (List.length fp) precision) as [Hl | Hl]; [| discriminate].
  cbn [andb]. intros [= <-]. exists ip, fp. repeat split; try assumption.
  - destruct ip; [right; destruct fp; [cbn in H0; lia | discriminate]
                 | left; discriminate].
  - pose proof (split_dot_inv s ip ofp Hs) as E. unfold fp.
    destruct ofp; [right | left]; exact E.
Qed.

(** * The codec on strings *)

Lemma formatUnits_nonneg n unit :
  0 <= n -> formatUnits n unit = string_of_list_ascii (format_digits n unit).
Proof.
  intros Hn. unfold formatUnits. destruct (Z.ltb_spec n 0); [lia | reflexivity].
Qed.

Lemma pow10_nonzero k : ~ inject_Z (10 ^ Z.of_nat k) == 0%Q.
Proof.
  unfold Qeq. cbn. assert (0 < 10 ^ Z.of_nat k) by (apply Z.pow_pos_nonneg; lia).
  lia.
Qed.

(** The integer [parse_digits] returns is the value of the numeral scaled by
    ten to the precision. *)
Lemma parse_digits_value s precision n :
  parse_digits s precision = Ok n ->
  (inject_Z n
   == amount_value (string_of_list_ascii s) * inject_Z (10 ^ Z.of_nat precision))%Q.
Proof.
  intros H. unfold amount_value. rewrite list_ascii_of_string_of_list_ascii.
  unfold parse_digits in H. destruct (split_dot s) as [ip ofp].
  set (fp := match ofp with Some fp => fp | None => [] end) in *.
  destruct (forallb is_digit ip && forallb is_digit fp
            && (0 <? List.length ip + List.length fp)%nat); [| discriminate].
  cbn [andb] in H.
  destruct (Nat.leb_spec (List.length fp) precision) as [Hl | Hl]; [| discriminate].
  injection H as <-.
  rewrite app_assoc, num_app_zeros.
  replace (Z.of_nat precision)
    with (Z.of_nat (List.length fp) + Z.of_nat (precision - List.length fp)) by lia.
  rewrite Z.pow_add_r by lia. rewrite !inject_Z_mult.
  field. apply pow10_nonzero.
Qed.

Lemma format_value n unit :
  0 <= n ->
  (amount_value (formatUnits n unit) * inject_Z (10 ^ Z.of_nat unit)
   == inject_Z n)%Q.
Proof.
  intros Hn. rewrite formatUnits_nonneg by assumption.
  symmetry. apply parse_digits_value, parse_format_digits, Hn.
Qed.

Lemma parse_digits_nonneg s precision n :
  parse_digits s precision = Ok n -> 0 <= n.
Proof.
  intros H. apply parse_digits_inv in H as (ip & fp & Hip & Hfp & _ & _ & _ & ->).
  apply num_nonneg. rewrite !forallb_app, Hip, Hfp. cbn [andb].
  apply forallb_forall. intros x Hx. apply repeat_spec in Hx. subst. reflexivity.
Qed.

Lemma parseUnits_in_bounds value unit :
  (unit <= MAX_PRECISION)%nat ->
  parseUnits value unit = parse_digits (list_ascii_of_string value) unit.
Proof.
  intros H. unfold parseUnits.
  destruct (Nat.ltb_spec MAX_PRECISION unit); [lia | reflexivity].
Qed.

Lemma parseUnits_nonneg value unit n : parseUnits value unit = Ok n -> 0 <= n.
Proof.
  unfold parseUnits. destruct (MAX_PRECISION <? unit)%nat; [discriminate |].
  apply parse_digits_nonneg.
Qed.

Lemma parseUnits_value value unit n :
  parseUnits value unit = Ok n ->
  (inject_Z n == amount_value value * inject_Z (10 ^ Z.of_nat unit))%Q.
Proof.
  unfold parseUnits. destruct (MAX_PRECISION <? unit)%nat; [discriminate |].
  intros H. apply parse_digits_value in H.
  rewrite string_of_list_ascii_of_string in H. exact H.
Qed.

(** Whatever numeral [parseUnits] accepts, writing the integer back gives a
    numeral of the same value: nothing is rounded. *)
Lemma round_trip_value value unit n :
  parseUnits value unit = Ok n ->
  (amount_value (formatUnits n unit) == amount_value value)%Q.
Proof.
  intros H. pose proof (parseUnits_value value unit n H) as Hv.
  pose proof (format_value n unit (parseUnits_nonneg value unit n H)) as Hf.
  rewrite Hv in Hf. apply Qmult_inj_r in Hf; [exact Hf | apply pow10_nonzero].
Qed.

(** C8.  For every valid decimal amount [a] and every supported precision
    [p] (the supported precisions include all up to 18), converting [a] to
    base units and back gives [a] up to trailing-zero normalisation; the
    conversion is exact: reading the output back returns the same
    integer. *)
Theorem codec_round_trip (a : string) (p : nat) :
  (p <= MAX_PRECISION)%nat ->
  valid_amount p a = true ->
  exists n,
    parseUnits a p = Ok n
    /\ normalize (formatUnits n p) = normalize a
    /\ parseUnits (formatUnits n p) p = Ok n.
Proof.
  intros Hp Hvalid. unfold valid_amount in Hvalid.
  destruct (split_dot (list_ascii_of_string a)) as [ip ofp] eqn:Hs.
  apply andb_true_iff in Hvalid as [Hvalid Hlen].
  apply andb_true_iff in Hvalid as [Hcan Hfp].
  apply Nat.leb_le in Hlen.
  destruct (format_parse_digits _ p ip ofp Hs Hcan Hfp Hlen) as (n & Hn & Hpos & Hnorm).
  exists n. rewrite !parseUnits_in_bounds by assumption.
  rewrite formatUnits_nonneg by assumption. unfold normalize.
  rewrite list_ascii_of_string_of_list_ascii, Hnorm.
  repeat split; [exact Hn | apply parse_format_digits, Hpos].
Qed.

(** C9.  A negative input, an input that is not a decimal numeral, and a
    precision beyond the supported bound each make [parseUnits] fail with
    [InvalidAmount]. *)
Theorem parseUnits_rejects (a : string) (p : nat) :
  is_negative a \/ ~ is_numeral a \/ (MAX_PRECISION < p)%nat ->
  parseUnits a p = Err InvalidAmount.
Proof.
  intros H. unfold parseUnits.
  destruct (Nat.ltb_spec MAX_PRECISION p) as [| Hp]; [reflexivity |].
  destruct (parse_digits (list_ascii_of_string a) p) as [n | e] eqn:E.
  - exfalso. apply parse_digits_inv in E as (ip & fp & Hip & Hfp & Hne & _ & Hs & _).
    destruct H as [[r ->] | [Hnum | Hlt]]; [| | lia].
    + cbn [list_ascii_of_string] in Hs.
      destruct ip as [| c ip]; [destruct Hs as [Hs | Hs]; discriminate |].
      cbn [forallb] in Hip. apply andb_true_iff in Hip as [Hc _].
      apply (is_digit_not_minus c Hc).
      destruct Hs as [Hs | Hs]; cbn [app] in Hs; congruence.
    + apply Hnum. exists ip, fp. repeat split; assumption.
  - unfold parse_digits in E. destruct (split_dot (list_ascii_of_string a)).
    destruct (_ && _) in E; [discriminate | congruence].
Qed.

(** * The pipeline *)

Ltac read_trace :=
  cbn [fst snd app submissions flat_map console filter reports_no_error forallb
       awaited negb andb map kind amount_of is_supply data to existsb].

Lemma ok_pair_inv {A} (t t' : Trace) (x y : A) :
  (t, Ok x) = (t', Ok y) -> t' = t /\ y = x.
Proof. intros [= -> ->]. split; reflexivity. Qed.

Lemma err_pair_inv {A} (t t' : Trace) (e e' : JsError) :
  (t, @Err A e) = (t', Err e') -> t' = t /\ e' = e.
Proof. intros [= -> ->]. split; reflexivity. Qed.

Ltac subst_left H :=
  match type of H with
  | ?v = _ => first [is_var v; subst v | clear H]
  end.

(** Execute the script inside hypothesis [H], which states what one step
    returned; the branches in which the step returned something else are
    closed. *)
Ltac execute_in H :=
  revert H; unfold_script;
  try match goal with E : parseUnits _ _ = _ |- _ => rewrite E end;
  execute; intros H;
  first [ discriminate H
        | let H1 := fresh in let H2 := fresh in
          first [ apply ok_pair_inv in H as [H1 H2]
                | apply err_pair_inv in H as [H1 H2] ];
          subst_left H1; subst_left H2 ].

(** Run the script in the goal along the answers already known. *)
Ltac replay :=
  unfold_script;
  try match goal with E : parseUnits _ _ = _ |- _ => rewrite E end;
  repeat (cbv beta iota zeta;
          match goal with
          | E : _ = Ok _ |- _ => rewrite E
          | E : _ = Err _ |- _ => rewrite E
          | E : truthy _ = _ |- _ => rewrite E
          end);
  cbv beta iota zeta.

Ltac close_failure :=
  replay; repeat split; intros; try reflexivity; try discriminate; try congruence.

(** When a step throws, [main] writes one line to the console and returns;
    nothing of the supply has been submitted unless it is the supply that
    threw. *)
Lemma failure_run (w : World) (a : string) (amt : Z)
      (s : Step) (t : Trace) (e : JsError) :
  parseUnits a 6 = Ok amt ->
  fails_at w a amt s t e ->
  run w a = (t ++ [LogError "An error occurred:" (message e)], Ok tt)
  /\ (s <> Supply -> existsb is_supply (submissions t) = false)
  /\ (s = ApproveForSwap -> message e = "Token approval failed"%string)
  /\ (s = Supply -> message e = "Aave supply failed"%string).
Proof.
  intros Hamt Hfail. remember (run w a) as r eqn:Hr.
  destruct s; unfold fails_at in Hfail.
  - execute_in Hfail; subst r; close_failure.
  - destruct Hfail as (t1 & H1 & H2).
    execute_in H1; execute_in H2; subst r; close_failure.
  - destruct Hfail as (t1 & t2 & info & H1 & H2 & H3).
    execute_in H1; execute_in H2; execute_in H3; subst r; close_failure.
  - destruct Hfail as (t1 & t2 & info & t3 & params & H1 & H2 & H3 & H4).
    execute_in H1; execute_in H2; execute_in H3; execute_in H4;
      subst r; close_failure.
  - destruct Hfail as (t1 & t2 & info & t3 & params & t4
                       & H1 & H2 & H3 & H4 & H5).
    execute_in H1; execute_in H2; execute_in H3; execute_in H4; execute_in H5;
      subst r; close_failure.
Qed.

(** Every submission of a run carries the base-unit amount of the input. *)
Lemma submissions_carry_amount (w : World) (a : string) (amt : Z) :
  parseUnits a 6 = Ok amt ->
  Forall (fun tx => amount_of tx = amt) (submissions (fst (run w a))).
Proof.
  intros H. unfold_script. rewrite H. execute.
  all: read_trace.
  all: repeat constructor.
Qed.

(** With a valid amount [main] never throws. *)
Lemma main_returns (w : World) (a : string) (amt : Z) :
  parseUnits a 6 = Ok amt -> snd (run w a) = Ok tt.
Proof.
  intros H. unfold_script. rewrite H. execute. all: reflexivity.
Qed.


(** C1.  Not every submission is awaited before the next one is issued:
    [executeSwap] never waits for its transaction, so in every run that
    reaches the supply step the approval for the lending pool is submitted
    while the swap is unconfirmed. *)
Theorem swap_not_awaited (w : World) (a : string) (amt : Z) :
  parseUnits a 6 = Ok amt ->
  existsb is_supply (submissions (fst (run w a))) = true ->
  awaited false (fst (run w a)) = false
  /\ forall swapRouter params t,
       exists l,
         fst (executeSwap swapRouter params w t) = t ++ l
         /\ existsb is_wait l = false.
Proof.
  intros Hamt H. split.
  - revert H. unfold_script. rewrite Hamt. execute.
    all: read_trace; intros Hs; first [discriminate Hs | reflexivity].
  - intros swapRouter params t. unfold_script. execute.
    all: cbn [fst]; rewrite <- ?app_assoc; cbn [app];
      first [ exists []; split; [symmetry; apply app_nil_r | reflexivity]
            | eexists; split; reflexivity ].
Qed.

(** The approval, in contrast, is awaited: [approveToken] alone keeps the
    discipline. *)
Lemma approval_awaited (w : World) (a : string) :
  awaited false (fst (approveToken (address USDC) a w [])) = true.
Proof.
  unfold_script. destruct (parseUnits a 6); execute; reflexivity.
Qed.

(** C2.  A zero pool address is not rejected: when the factory answers the
    zero address, [getPoolInfo] does not throw its own error; it reads the
    pool at that address, and returns when the reads answer. *)
Theorem zero_address_not_rejected
        (w : World) (t : Trace) (a0 a1 : Address) (f : Z) :
  let t1 := t ++ [GetPool (address USDC) (address LINK) 3000] in
  let t2 := t1 ++ [Token0 ZERO_ADDRESS] in
  let t3 := t2 ++ [Token1 ZERO_ADDRESS] in
  getPool_result w t (address USDC) (address LINK) 3000
  = Ok (JsStr ZERO_ADDRESS) ->
  token0_result w t1 ZERO_ADDRESS = Ok a0 ->
  token1_result w t2 ZERO_ADDRESS = Ok a1 ->
  fee_result w t3 ZERO_ADDRESS = Ok f ->
  getPoolInfo USDC LINK w t
  = (t3 ++ [Fee ZERO_ADDRESS],
     Ok {| Pool.poolContract := ZERO_ADDRESS;
           Pool.token0 := a0;
           Pool.token1 := a1;
           Pool.fee := f |}).
Proof.
  intros t1 t2 t3 Hpool H0 H1 Hf. subst t1 t2 t3.
  unfold_script. rewrite Hpool. cbv beta iota zeta.
  change (truthy (JsStr ZERO_ADDRESS)) with true. cbv beta iota zeta.
  rewrite H0, H1, Hf. reflexivity.
Qed.

(** The part of the claim that holds: a [null] answer makes [getPoolInfo]
    throw before any read of the pool. *)
Lemma null_pool_rejected (w : World) (t : Trace) :
  getPool_result w t (address USDC) (address LINK) 3000 = Ok JsNull ->
  getPoolInfo USDC LINK w t
  = (t ++ [GetPool (address USDC) (address LINK) 3000],
     Err (mkError "Failed to get pool address")).
Proof. intros H. unfold_script. rewrite H. reflexivity. Qed.

(** When a step throws, the run ends there: its trace is the trace up to the
    throw and one line on the console; when it is a step before the supply
    that throws, nothing of the supply step is submitted. *)
Lemma failure_aborts_remaining_steps
        (w : World) (a : string) (amt : Z) (s : Step) (t : Trace) (e : JsError) :
  parseUnits a 6 = Ok amt ->
  fails_at w a amt s t e ->
  fst (run w a) = t ++ [LogError "An error occurred:" (message e)]
  /\ (s <> Supply ->
      existsb is_supply (submissions (fst (run w a))) = false).
Proof.
  intros Hamt Hfail.
  destruct (failure_run w a amt s t e Hamt Hfail) as (Hrun & Hsup & _).
  rewrite Hrun. cbn [fst]. split; [reflexivity |].
  intros Hs. unfold submissions. rewrite flat_map_app, existsb_app.
  fold (submissions t). rewrite (Hsup Hs). reflexivity.
Qed.

(** A run that reports no failure submitted the whole plan. *)
Lemma complete_run_submits_plan (w : World) (a : string) (amt : Z) :
  parseUnits a 6 = Ok amt ->
  reports_no_error (fst (run w a)) = true ->
  map kind (submissions (fst (run w a))) = plan.
Proof.
  intros H. unfold_script. rewrite H. execute.
  all: read_trace; intros Hs; first [discriminate Hs | reflexivity].
Qed.

(** C3.  A swap that fails on-chain does not stop the pipeline.  In the
    world [with_swap_reverted w] a wait made while the swap is the latest
    submission is rejected, and yet the run is, call for call and line for
    line, the run in [w], because the script never waits for the swap: when
    the run in [w] reports no failure, the run with the rejected swap
    submits the approval for the lending pool and the deposit all the
    same. *)
Theorem swap_revert_not_observed (w : World) (a : string) :
  (forall t tx hash,
     last_submission t = Some tx -> kind tx = SwapSubmission ->
     wait_result (with_swap_reverted w) t hash = Err TransactionRejected)
  /\ run (with_swap_reverted w) a = run w a
  /\ (forall amt,
        parseUnits a (decimals USDC) = Ok amt ->
        reports_no_error (fst (run w a)) = true ->
        map kind (submissions (fst (run (with_swap_reverted w) a))) = plan).
Proof.
  assert (Hrun : run (with_swap_reverted w) a = run w a).
  { unfold_script. unfold with_swap_reverted.
    destruct (parseUnits a 6) as [amt | e]; [| reflexivity].
    repeat (cbv beta iota zeta;
            cbn [signer_address populate_result send_result wait_result
                 getPool_result token0_result token1_result fee_result
                 last_submission fold_left app kind data
                 Pool.poolContract Swap.amountIn];
            try answer).
    all: reflexivity. }
  split; [| split; [exact Hrun |]].
  - intros t tx hash Hlast Hkind. cbn [with_swap_reverted wait_result].
    rewrite Hlast, Hkind. reflexivity.
  - intros amt Hamt Hok. rewrite Hrun.
    apply (complete_run_submits_plan w a amt Hamt Hok).
Qed.

Section Supported.

Hypothesis MAX_PRECISION_ge_18 : (18 <= MAX_PRECISION)%nat.

Lemma parseUnits_one : parseUnits "1" 6 = Ok 1000000.
Proof. rewrite parseUnits_in_bounds by lia. reflexivity. Qed.

(** C4.  The run on input [1] that reports no failure: the amount in base
  units is 1000000, and exactly four transactions are submitted, in this
  order: the approval for the swap router, the swap, the approval for
  the lending pool, the deposit. *)
Theorem end_to_end_one (w : World) :
reports_no_error (fst (run w "1")) = true ->
parseUnits "1" (decimals USDC) = Ok 1000000
/\ exists poolFee,
     submissions (fst (run w "1"))
     = [ {| to := address USDC;
            data := approve SWAP_ROUTER_CONTRACT_ADDRESS 1000000 |};
         {| to := SWAP_ROUTER_CONTRACT_ADDRESS;
            data := exactInputSingle
                      {| Swap.tokenIn := address USDC;
                         Swap.tokenOut := address LINK;
                         Swap.fee := poolFee;
                         Swap.recipient := signer_address w;
                         Swap.amountIn := 1000000;
                         Swap.amountOutMinimum := 0;
                         Swap.sqrtPriceLimitX96 := 0 |} |};
         {| to := address LINK;
            data := approve AAVE_LENDING_POOL_ADDRESS 1000000 |};
         {| to := AAVE_LENDING_POOL_ADDRESS;
            data := deposit (address LINK) 1000000 (signer_address w) 0 |} ].
Proof.
intros H. split; [exact parseUnits_one |].
revert H. unfold_script. rewrite parseUnits_one. execute.
all: read_trace; intros Hs; first [discriminate Hs | eexists; reflexivity].
Qed.

End Supported.

(** C5.  One amount runs through the pipeline: the base-unit amount of the
    caller's input.  In every run, whatever the world answers, every
    submission carries it, and the supply carries the swap's [amountIn],
    not something read from the swap's result; and a run that reports no
    failure does submit the swap with that [amountIn], the approval for the
    lending pool and the deposit, each for that amount. *)
Theorem single_amount_propagated (w : World) (a : string) (amt : Z) :
  parseUnits a (decimals USDC) = Ok amt ->
  (forall tx, In tx (submissions (fst (run w a))) -> amount_of tx = amt)
  /\ (forall swap supply,
        In swap (submissions (fst (run w a))) ->
        In supply (submissions (fst (run w a))) ->
        kind swap = SwapSubmission -> is_supply supply = true ->
        amount_of supply = amount_of swap)
  /\ (reports_no_error (fst (run w a)) = true ->
      exists poolFee,
        submissions (fst (run w a))
        = [ {| to := address USDC;
               data := approve SWAP_ROUTER_CONTRACT_ADDRESS amt |};
            {| to := SWAP_ROUTER_CONTRACT_ADDRESS;
               data := exactInputSingle
                         {| Swap.tokenIn := address USDC;
                            Swap.tokenOut := address LINK;
                            Swap.fee := poolFee;
                            Swap.recipient := signer_address w;
                            Swap.amountIn := amt;
                            Swap.amountOutMinimum := 0;
                            Swap.sqrtPriceLimitX96 := 0 |} |};
            {| to := address LINK;
               data := approve AAVE_LENDING_POOL_ADDRESS amt |};
            {| to := AAVE_LENDING_POOL_ADDRESS;
               data := deposit (address LINK) amt (signer_address w) 0 |} ]).
Proof.
  intros Hamt. change (decimals USDC) with 6%nat in Hamt.
  pose proof (submissions_carry_amount w a amt Hamt) as Hall.
  rewrite Forall_forall in Hall. split; [exact Hall |]. split.
  - intros swap supply Hswap Hsupply _ _.
    rewrite (Hall supply Hsupply), (Hall swap Hswap). reflexivity.
  - clear Hall. unfold_script. rewrite Hamt. execute.
    all: read_trace; intros Hs; first [discriminate Hs | eexists; reflexivity].
Qed.


(** C7.  Whatever [getPoolInfo] reported about the pool, its [token0] and
    [token1] included, the swap parameters name the input token as
    [tokenIn] and carry zero as minimum output and as price limit. *)
Theorem prepareSwapParams_fixed_fields
        (info : Pool.Info) (amountIn : Z) (w : World) (t : Trace) (f : Z) :
  fee_result w t (Pool.poolContract info) = Ok f ->
  exists params,
    prepareSwapParams (Pool.poolContract info) amountIn w t
    = (t ++ [Fee (Pool.poolContract info)], Ok params)
    /\ Swap.tokenIn params = address USDC
    /\ Swap.amountOutMinimum params = 0
    /\ Swap.sqrtPriceLimitX96 params = 0.
Proof.
  intros Hfee. unfold prepareSwapParams, bind, call, ret. rewrite Hfee.
  eexists. repeat split.
Qed.

Lemma scale_down (r v : Q) (n : Z) :
  (inject_Z n == v * inject_Z (10 ^ 6))%Q ->
  (r * inject_Z (10 ^ 18) == inject_Z n)%Q ->
  (r == v / inject_Z (10 ^ 12))%Q.
Proof.
  intros Hv Hf. rewrite Hv in Hf.
  assert (H18 : (inject_Z (10 ^ 18) == inject_Z (10 ^ 6) * inject_Z (10 ^ 12))%Q)
    by reflexivity.
  rewrite H18 in Hf.
  assert (Hr : (r == v * inject_Z (10 ^ 6)
                     / (inject_Z (10 ^ 6) * inject_Z (10 ^ 12)))%Q).
  { rewrite <- Hf. field. split; discriminate. }
  rewrite Hr. field. split; discriminate.
Qed.

(** C10.  The integer the second approval and the deposit carry is the
    input scaled by ten to the 6, the precision of the input token; the
    line written on success formats that integer with 18 decimals, so the
    amount it reports is the input divided by ten to the 12. *)
Theorem supplied_amount_in_input_units (w : World) (a : string) (amt : Z) :
  parseUnits a (decimals USDC) = Ok amt ->
  (inject_Z amt == amount_value a * inject_Z (10 ^ 6))%Q
  /\ (forall tx, In tx (submissions (fst (run w a))) ->
                 is_supply tx = true -> amount_of tx = amt)
  /\ (reports_no_error (fst (run w a)) = true ->
      In (Send {| to := AAVE_LENDING_POOL_ADDRESS;
                  data := deposit (address LINK) amt (signer_address w) 0 |})
         (fst (run w a))
      /\ In (Log ("Successfully supplied "
                  ++ formatUnits amt (decimals LINK) ++ " LINK to Aave."))
            (fst (run w a)))
  /\ (amount_value (formatUnits amt (decimals LINK))
      == amount_value a / inject_Z (10 ^ 12))%Q.
Proof.
  intros Hamt. change (decimals USDC) with 6%nat in Hamt.
  change (decimals LINK) with 18%nat.
  pose proof (parseUnits_value a 6 amt Hamt) as Hv.
  pose proof (format_value amt 18 (parseUnits_nonneg a 6 amt Hamt)) as Hf.
  change (Z.of_nat 6) with 6 in Hv. change (Z.of_nat 18) with 18 in Hf.
  split; [exact Hv |]. split; [| split].
  - intros tx Hin _.
    pose proof (submissions_carry_amount w a amt Hamt) as Hall.
    rewrite Forall_forall in Hall. apply Hall, Hin.
  - unfold_script. rewrite Hamt. execute.
    all: cbn [fst reports_no_error forallb app andb]; intros Hs;
      try discriminate Hs.
    split; repeat (first [left; reflexivity | right]).
  - exact (scale_down _ _ amt Hv Hf).
Qed.

Ltac step_returns := replay; reflexivity.

Ltac failure_at s :=
  right; exists s; unfold fails_at; repeat eexists;
  repeat (split; [step_returns |]); step_returns.

(** Every run with a valid amount either reports no failure or fails at one
    of the five steps: [fails_at] covers all the failures there are. *)
Lemma run_completes_or_fails (w : World) (a : string) (amt : Z) :
  parseUnits a 6 = Ok amt ->
  reports_no_error (fst (run w a)) = true
  \/ exists s t e, fails_at w a amt s t e.
Proof.
  intros Hamt. unfold_script. rewrite Hamt. execute.
  all: first [ left; reflexivity
             | failure_at ApproveForSwap
             | failure_at ResolvePool
             | failure_at BuildSwapParams
             | failure_at SubmitSwap
             | failure_at Supply ].
Qed.

(** An amount the codec rejects never reaches the pipeline: [main] throws
    before its [try], and nothing is submitted. *)
Lemma invalid_amount_thrown (w : World) (a : string) (e : JsError) :
  parseUnits a 6 = Err e -> run w a = ([], Err e).
Proof. intros H. unfold_script. rewrite H. reflexivity. Qed.

(** * More of the script *)

Ltac read_calls :=
  cbn [fst snd app calls shape flat_map submissions console filter
       reports_no_error forallb awaited negb andb kind data to].

(** What a function added to the trace it started from. *)
Ltac added_trace :=
  cbn [fst]; rewrite <- ?app_assoc; cbn [app];
  first [ exists []; split; [symmetry; apply app_nil_r |]
        | eexists; split; [reflexivity |] ].

(** X1.  [approveToken] submits at most one transaction: the approval of
    the swap router on the token it is given, for the amount read with the
    6 decimals of USDC whatever the token is.  When it returns normally it
    has waited for that transaction: the hash it waited for is the one the
    submission answered, and the wait answered. *)
Theorem approveToken_one_approval
        (tokenAddress : Address) (a : string) (w : World) (t : Trace) :
  exists l,
    fst (approveToken tokenAddress a w t) = t ++ l
    /\ awaited false l = true
    /\ (submissions l = []
        \/ exists amt,
             parseUnits a (decimals USDC) = Ok amt
             /\ submissions l
                = [ {| to := tokenAddress;
                       data := approve SWAP_ROUTER_CONTRACT_ADDRESS amt |} ])
    /\ (snd (approveToken tokenAddress a w t) = Ok tt ->
        exists amt hash receipt,
          l = [ Send {| to := tokenAddress;
                        data := approve SWAP_ROUTER_CONTRACT_ADDRESS amt |};
                Log rule; Log "Sending Approval Transaction..."; Log rule;
                Log ("Transaction Sent: " ++ hash); Log rule;
                Wait hash;
                Log ("Approval Transaction Confirmed! https://sepolia.etherscan.io/tx/"
                     ++ receipt) ]
          /\ parseUnits a (decimals USDC) = Ok amt
          /\ send_result w t
               {| to := tokenAddress;
                  data := approve SWAP_ROUTER_CONTRACT_ADDRESS amt |}
             = Ok hash
          /\ wait_result w
               (t ++ [ Send {| to := tokenAddress;
                               data := approve SWAP_ROUTER_CONTRACT_ADDRESS
                                               amt |};
                       Log rule; Log "Sending Approval Transaction...";
                       Log rule; Log ("Transaction Sent: " ++ hash);
                       Log rule ])
               hash
             = Ok receipt).
Proof.
  unfold_script. destruct (parseUnits a 6) as [amt | e0] eqn:Hamt; execute.
  all: rewrite <- ?app_assoc in *; cbn [app] in *.
  all: cbn [fst snd]; eexists; split; [reflexivity |]; split; [reflexivity |].
  all: split; [ first [ left; reflexivity
                      | right; exists amt; split; reflexivity ] |].
  all: intros Hok; try discriminate Hok.
  exists amt. do 2 eexists. split; [reflexivity |].
  repeat split; try reflexivity; assumption.
Qed.


(** X3.  [supplyToAave] submits at most two transactions, in this order:
    the approval of the lending pool on the token for the amount, then the
    deposit of that amount of the token on behalf of the signer with
    referral code 0.  The deposit is submitted only after the wait for the
    approval answered; and when [supplyToAave] returns normally it has
    waited for the deposit too, each wait being for the hash its submission
    answered. *)
Theorem supplyToAave_two_submissions
        (tokenAddress : Address) (amount : Z) (w : World) (t : Trace) :
  let approval := {| to := tokenAddress;
                     data := approve AAVE_LENDING_POOL_ADDRESS amount |} in
  let supply := {| to := AAVE_LENDING_POOL_ADDRESS;
                   data := deposit tokenAddress amount (signer_address w) 0 |} in
  exists l,
    fst (supplyToAave tokenAddress amount w t) = t ++ l
    /\ awaited false l = true
    /\ (exists rest, submissions l ++ rest = [approval; supply])
    /\ (In (Send supply) l ->
        exists hash1 receipt1 rest,
          l = Send approval :: Wait hash1 :: Send supply :: rest
          /\ send_result w t approval = Ok hash1
          /\ wait_result w (t ++ [Send approval]) hash1 = Ok receipt1)
    /\ (snd (supplyToAave tokenAddress amount w t) = Ok tt ->
        exists hash1 receipt1 hash2 receipt2,
          l = [ Send approval; Wait hash1; Send supply;
                LogObject "Supply Transaction:" hash2;
                Wait hash2;
                LogObject "Supply Response:" receipt2;
                Log ("Successfully supplied "
                     ++ formatUnits amount (decimals LINK) ++ " LINK to Aave.");
                Log ("Transaction Hash: https://sepolia.etherscan.io/tx/"
                     ++ hash2) ]
          /\ send_result w t approval = Ok hash1
          /\ wait_result w (t ++ [Send approval]) hash1 = Ok receipt1
          /\ send_result w (t ++ [Send approval; Wait hash1]) supply = Ok hash2
          /\ wait_result w
               (t ++ [ Send approval; Wait hash1; Send supply;
                       LogObject "Supply Transaction:" hash2 ])
               hash2
             = Ok receipt2).
Proof.
  intros approval supply. subst approval supply.
  unfold_script. execute.
  all: rewrite <- ?app_assoc in *; cbn [app] in *.
  all: cbn [fst snd]; eexists; split; [reflexivity |]; split; [reflexivity |].
  all: split; [read_trace; eexists; reflexivity |].
  all: split.
  all: try (intros Hok; discriminate Hok).
  all: try (intros Hin; cbn [In] in Hin;
            repeat (destruct Hin as [Hin | Hin]; [try discriminate Hin |]);
            try contradiction; fail).
  all: match goal with
       | |- In _ _ -> _ =>
           intros _; do 3 eexists; split; [reflexivity |];
           split; first [reflexivity | eassumption]
       | |- _ = _ -> _ =>
           intros _; do 4 eexists; split; [reflexivity |];
           repeat split; first [reflexivity | eassumption]
       end.
Qed.

(** X4.  When [supplyToAave] fails, it throws an error that says only
    ["Aave supply failed"], and its last action is to write the message of
    the cause to the console: the error of the encoding of the approval, of
    its submission, of the wait for it, of the deposit or of the wait for
    the deposit, whichever failed; nothing is done after the call that
    failed. *)
Theorem supplyToAave_failure_wrapped
        (tokenAddress : Address) (amount : Z) (w : World)
        (t t' : Trace) (e : JsError) :
  supplyToAave tokenAddress amount w t = (t', Err e) ->
  let label := "An error occurred while supplying tokens to Aave:"%string in
  let approval := {| to := tokenAddress;
                     data := approve AAVE_LENDING_POOL_ADDRESS amount |} in
  let supply := {| to := AAVE_LENDING_POOL_ADDRESS;
                   data := deposit tokenAddress amount (signer_address w) 0 |} in
  e = mkError "Aave supply failed"
  /\ exists cause,
       (populate_result w t approval = Err cause
        /\ t' = t ++ [LogError label (message cause)])
       \/ (send_result w t approval = Err cause
           /\ t' = t ++ [Send approval; LogError label (message cause)])
       \/ exists hash1,
            send_result w t approval = Ok hash1
            /\ ((wait_result w (t ++ [Send approval]) hash1 = Err cause
                 /\ t' = t ++ [ Send approval; Wait hash1;
                                LogError label (message cause) ])
                \/ (send_result w (t ++ [Send approval; Wait hash1]) supply
                    = Err cause
                    /\ t' = t ++ [ Send approval; Wait hash1; Send supply;
                                   LogError label (message cause) ])
                \/ exists hash2,
                     send_result w (t ++ [Send approval; Wait hash1]) supply
                     = Ok hash2
                     /\ wait_result w
                          (t ++ [ Send approval; Wait hash1; Send supply;
                                  LogObject "Supply Transaction:" hash2 ])
                          hash2
                        = Err cause
                     /\ t' = t ++ [ Send approval; Wait hash1; Send supply;
                                    LogObject "Supply Transaction:" hash2;
                                    Wait hash2;
                                    LogError label (message cause) ]).
Proof.
  intros H label approval supply. subst label approval supply.
  revert H. unfold_script. execute; intros H; try discriminate H.
  all: apply err_pair_inv in H as [-> ->]; split; [reflexivity |].
  all: rewrite <- ?app_assoc in *; cbn [app] in *.
  all: eexists;
    first [ left; split; [first [reflexivity | eassumption] | reflexivity]
          | right; left; split; [first [reflexivity | eassumption] | reflexivity]
          | right; right; eexists; split; [first [reflexivity | eassumption] |];
            first [ left; split; [first [reflexivity | eassumption] | reflexivity]
                  | right; left; split; [first [reflexivity | eassumption] | reflexivity]
                  | right; right; eexists;
                    split; [first [reflexivity | eassumption] |]; split; [first [reflexivity | eassumption] | reflexivity] ] ].
Qed.

(** X5.  [getPoolInfo] only reads: it submits nothing and writes nothing to
    the console.  It asks the factory once, for the fee tier 3000, and then
    either stops or issues all three reads of the pool, also when one of
    them fails. *)
Theorem getPoolInfo_reads_only (tokenIn tokenOut : Token) (w : World) (t : Trace) :
  exists l,
    fst (getPoolInfo tokenIn tokenOut w t) = t ++ l
    /\ submissions l = []
    /\ console l = []
    /\ (l = [GetPool (address tokenIn) (address tokenOut) 3000]
        \/ exists pool,
             l = [GetPool (address tokenIn) (address tokenOut) 3000;
                  Token0 pool; Token1 pool; Fee pool]).
Proof.
  unfold_script. execute.
  all: added_trace; split; [reflexivity |]; split; [reflexivity |].
  all: first [ left; reflexivity | right; eexists; reflexivity ].
Qed.

(** X6.  The guard of [getPoolInfo] fires exactly on a falsy answer of the
    factory ([null] or the empty string): then it throws
    ["Failed to get pool address"] without reading anything; on every other
    answer it goes on to read the pool at the address answered. *)
Theorem getPoolInfo_guard (tokenIn tokenOut : Token) (w : World) (t : Trace)
        (answer : JsAddr) :
  getPool_result w t (address tokenIn) (address tokenOut) 3000 = Ok answer ->
  (truthy answer = false ->
   getPoolInfo tokenIn tokenOut w t
   = (t ++ [GetPool (address tokenIn) (address tokenOut) 3000],
      Err (mkError "Failed to get pool address")))
  /\ (truthy answer = true ->
      exists pool,
        answer = JsStr pool
        /\ fst (getPoolInfo tokenIn tokenOut w t)
           = t ++ [GetPool (address tokenIn) (address tokenOut) 3000;
                   Token0 pool; Token1 pool; Fee pool]).
Proof.
  intros Hpool. split; intros Htruthy.
  - unfold_script. rewrite Hpool. cbv beta iota zeta.
    destruct answer as [| pool]; [reflexivity |].
    rewrite Htruthy. reflexivity.
  - destruct answer as [| pool]; [discriminate Htruthy |].
    exists pool. split; [reflexivity |].
    unfold_script. rewrite Hpool. cbv beta iota zeta. rewrite Htruthy.
    execute. all: cbn [fst]; rewrite <- ?app_assoc; reflexivity.
Qed.

(** X7.  [executeSwap] does not wrap errors and writes nothing when it
    fails: what it throws is the error of the encoding, with nothing
    submitted, or the error of the submission. *)
Theorem executeSwap_failure_unwrapped
        (swapRouter : Address) (params : Swap.Params) (w : World)
        (t t' : Trace) (e : JsError) :
  executeSwap swapRouter params w t = (t', Err e) ->
  let tx := {| to := swapRouter; data := exactInputSingle params |} in
  (populate_result w t tx = Err e /\ t' = t)
  \/ (populate_result w t tx = Ok tt /\ send_result w t tx = Err e
      /\ t' = t ++ [Send tx]).
Proof.
  intros H tx. subst tx. revert H. unfold_script. execute; intros H;
    try discriminate H.
  all: apply err_pair_inv in H as [-> ->].
  - right. repeat split; reflexivity.
  - left. split; reflexivity.
Qed.

(** X8.  [main] throws only for an amount the codec rejects, and then
    before anything is submitted or written; with an amount the codec
    accepts it always returns, whatever fails afterwards. *)
Theorem main_throws_only_invalid_amount (w : World) (a : string) :
  match parseUnits a (decimals USDC) with
  | Ok _ => snd (run w a) = Ok tt
  | Err e => run w a = ([], Err e)
  end.
Proof.
  change (decimals USDC) with 6%nat.
  destruct (parseUnits a 6) as [amt | e] eqn:Hamt.
  - apply (main_returns w a amt Hamt).
  - apply (invalid_amount_thrown w a e Hamt).
Qed.

(** X9.  The pipeline is linear: the calls a run makes to the node are the
    first ones of a fixed sequence of twelve calls (approval and its
    confirmation, the factory, the three reads of the pool, the second read
    of the fee, the swap, the second approval and its confirmation, the
    deposit and its confirmation); no call is repeated, none is made out of
    order. *)
Theorem calls_follow_fixed_sequence (w : World) (a : string) (amt : Z) :
  parseUnits a (decimals USDC) = Ok amt ->
  exists rest, calls (fst (run w a)) ++ rest = full_run_calls.
Proof.
  change (decimals USDC) with 6%nat.
  intros H. unfold_script. rewrite H. execute.
  all: read_calls; eexists; reflexivity.
Qed.

(** X10.  Every run with an accepted amount ends with a verdict on the
    console: either nothing failed, all twelve calls were made and the last
    line is the hash the submission of the deposit answered, or a failure
    was written and the last line is ["An error occurred:"] with a
    message. *)
Theorem run_ends_with_verdict (w : World) (a : string) (amt : Z) :
  parseUnits a (decimals USDC) = Ok amt ->
  (reports_no_error (fst (run w a)) = true
   /\ calls (fst (run w a)) = full_run_calls
   /\ exists pre hash before after,
        fst (run w a)
        = pre ++ [Log ("Transaction Hash: https://sepolia.etherscan.io/tx/"
                       ++ hash)]
        /\ let supply :=
             {| to := AAVE_LENDING_POOL_ADDRESS;
                data := deposit (address LINK) amt (signer_address w) 0 |} in
           fst (run w a) = before ++ Send supply :: after
           /\ send_result w before supply = Ok hash)
  \/ (reports_no_error (fst (run w a)) = false
      /\ exists pre text,
           fst (run w a) = pre ++ [LogError "An error occurred:" text]).
Proof.
  change (decimals USDC) with 6%nat.
  intros H. unfold_script. rewrite H. execute.
  all: cbn [fst].
  all: try (right; split; [reflexivity |]; do 2 eexists; reflexivity).
  left. split; [reflexivity |]. split; [reflexivity |].
  match goal with
  | Hs : send_result _ ?p {| to := _; data := deposit _ _ _ _ |} = Ok ?h |- _ =>
      eexists; exists h, p; eexists; split; [reflexivity |];
        cbv zeta; split; [| exact Hs]
  end.
  rewrite <- ?app_assoc. cbn [app]. reflexivity.
Qed.

(** X11.  Every transaction a run submits is one the script is written to
    submit: an approval of the router on USDC or of the lending pool on
    LINK, the swap of USDC for LINK paid out to the signer, the deposit of
    LINK on behalf of the signer with referral code 0.  No other spender,
    recipient or beneficiary ever appears. *)
Theorem submissions_well_formed (w : World) (a : string) (amt : Z) :
  parseUnits a (decimals USDC) = Ok amt ->
  Forall (well_formed w) (submissions (fst (run w a))).
Proof.
  change (decimals USDC) with 6%nat.
  intros H. unfold_script. rewrite H. execute.
  all: read_trace.
  all: repeat (apply Forall_cons; [cbn; auto 10 |]); apply Forall_nil.
Qed.

(** X12.  What the pool answers for [token0] and [token1] has no effect on
    a run: [main] keeps only the pool contract of what [getPoolInfo]
    returns. *)
Theorem run_ignores_pool_tokens
        (w : World) (a : string) (a0 a1 b0 b1 : Address) :
  run (with_pool_tokens a0 a1 w) a = run (with_pool_tokens b0 b1 w) a.
Proof.
  unfold_script. unfold with_pool_tokens.
  destruct (parseUnits a 6) as [amt | e]; [| reflexivity].
  repeat (cbv beta iota zeta;
          cbn [signer_address populate_result send_result wait_result
               getPool_result token0_result token1_result fee_result
               Pool.poolContract Swap.amountIn];
          try answer).
  all: reflexivity.
Qed.

(** X13.  The fee that goes into the swap parameters is read anew by
    [prepareSwapParams]; the fee [getPoolInfo] read one call earlier is a
    different answer of the pool and is not used. *)
Theorem swap_fee_is_read_again
        (w : World) (t t2 t3 : Trace) (info : Pool.Info) (amountIn : Z)
        (params : Swap.Params) :
  getPoolInfo USDC LINK w t = (t2, Ok info) ->
  prepareSwapParams (Pool.poolContract info) amountIn w t2 = (t3, Ok params) ->
  fee_result w t2 (Pool.poolContract info) = Ok (Swap.fee params)
  /\ exists t1,
       t2 = t1 ++ [Fee (Pool.poolContract info)]
       /\ fee_result w t1 (Pool.poolContract info) = Ok (Pool.fee info).
Proof.
  intros H1 H2. execute_in H1. execute_in H2.
  cbn [Swap.fee Pool.fee Pool.poolContract] in *. split; [reflexivity |].
  eexists. split; [reflexivity | assumption].
Qed.

(** X14.  Every wait of a run is for a transaction the run submitted
    before: the hash waited for is the one the world answered to an earlier
    submission. *)
Theorem waits_are_for_submitted (w : World) (a : string) (amt : Z) (hash : Hash) :
  parseUnits a (decimals USDC) = Ok amt ->
  In (Wait hash) (fst (run w a)) ->
  exists pre tx post,
    fst (run w a) = pre ++ Send tx :: post
    /\ send_result w pre tx = Ok hash.
Proof.
  change (decimals USDC) with 6%nat.
  intros H. unfold_script. rewrite H. execute.
  all: cbn [fst]; intros Hin.
  all: repeat (apply in_app_or in Hin; destruct Hin as [Hin | Hin];
               [| cbn [In] in Hin; destruct Hin as [Hin | []];
                  try discriminate Hin]).
  all: try (cbn [In] in Hin; contradiction).
  all: injection Hin as <-.
  all: match goal with
       | Hs : send_result _ ?p ?x = Ok ?h
         |- exists _ _ _, _ /\ send_result _ _ _ = Ok ?h =>
           exists p, x; eexists; split; [| exact Hs]
       end.
  all: rewrite <- ?app_assoc; cbn [app]; reflexivity.
Qed.

(** X15.  The script never writes the success line after a failure: a run
    whose console has a line ["Successfully supplied ..."] reports no
    error. *)
Theorem success_line_only_when_complete
        (w : World) (a : string) (amt : Z) (text : string) :
  parseUnits a (decimals USDC) = Ok amt ->
  In (Log ("Successfully supplied " ++ text)) (fst (run w a)) ->
  reports_no_error (fst (run w a)) = true.
Proof.
  change (decimals USDC) with 6%nat.
  intros H. unfold_script. rewrite H. generalize (formatUnits amt 18).
  intros shown. execute.
  all: cbn [fst]; intros Hin; try reflexivity; exfalso.
  all: repeat (apply in_app_or in Hin; destruct Hin as [Hin | Hin];
               [| cbn [In] in Hin; destruct Hin as [Hin | []];
                  try discriminate Hin]).
  all: try (cbn [In] in Hin; contradiction).
  all: unfold rule in Hin; cbn [String.append] in Hin; discriminate Hin.
Qed.

End Script.

(** * The claims at concrete inputs *)

Lemma swap_not_awaited_witness :
  parseUnits 18 "1" 6 = Ok 1000000
  /\ existsb is_supply (submissions (fst (run 18 happy_world "1"))) = true
  /\ awaited false (fst (run 18 happy_world "1")) = false.
Proof.
  split; [reflexivity | split; [reflexivity |]].
  apply (swap_not_awaited 18 happy_world "1" 1000000); reflexivity.
Defined.

Lemma zero_address_not_rejected_witness :
  getPool_result no_pool_world [] (address USDC) (address LINK) 3000
  = Ok (JsStr ZERO_ADDRESS)
  /\ getPoolInfo USDC LINK no_pool_world []
     = ([GetPool (address USDC) (address LINK) 3000;
         Token0 ZERO_ADDRESS; Token1 ZERO_ADDRESS; Fee ZERO_ADDRESS],
        Ok {| Pool.poolContract := ZERO_ADDRESS;
              Pool.token0 := address LINK;
              Pool.token1 := address USDC;
              Pool.fee := 3000 |}).
Proof.
  split; [reflexivity |].
  apply (zero_address_not_rejected no_pool_world []); reflexivity.
Defined.

(** With the zero address for a pool the run goes on to build the swap
    parameters and to submit all four transactions. *)
Lemma no_pool_run_proceeds :
  map kind (submissions (fst (run 18 no_pool_world "1"))) = plan
  /\ reports_no_error (fst (run 18 no_pool_world "1")) = true.
Proof. split; reflexivity. Qed.

(** In a world where every call answers but the swap is rejected on-chain,
    the run still submits the approval for the lending pool and the
    deposit, and reports no failure. *)
Lemma reverted_swap_still_supplies :
  wait_result (with_swap_reverted happy_world)
              (firstn 14 (fst (run 18 (with_swap_reverted happy_world) "1")))
              "0xb1"%string
  = Err TransactionRejected
  /\ map kind (submissions (fst (run 18 (with_swap_reverted happy_world) "1")))
     = plan
  /\ reports_no_error (fst (run 18 (with_swap_reverted happy_world) "1")) = true.
Proof. repeat split; reflexivity. Qed.

Lemma end_to_end_one_witness :
  (18 <= 18)%nat
  /\ reports_no_error (fst (run 18 happy_world "1")) = true
  /\ parseUnits 18 "1" (decimals USDC) = Ok 1000000
  /\ map kind (submissions (fst (run 18 happy_world "1"))) = plan.
Proof.
  split; [apply le_n | split; [reflexivity |]].
  destruct (end_to_end_one 18 (le_n 18) happy_world eq_refl) as [Hamt [f Hs]].
  split; [exact Hamt |]. rewrite Hs. reflexivity.
Defined.

Lemma single_amount_propagated_witness :
  parseUnits 18 "1" (decimals USDC) = Ok 1000000
  /\ reports_no_error (fst (run 18 happy_world "1")) = true
  /\ In {| to := AAVE_LENDING_POOL_ADDRESS;
           data := deposit (address LINK) 1000000
                           (signer_address happy_world) 0 |}
        (submissions (fst (run 18 happy_world "1"))).
Proof.
  split; [reflexivity | split; [reflexivity |]].
  destruct (single_amount_propagated 18 happy_world "1" 1000000 eq_refl)
    as (_ & _ & Hsub).
  destruct (Hsub eq_refl) as [poolFee ->].
  right. right. right. left. reflexivity.
Defined.



Lemma prepareSwapParams_fixed_fields_witness :
  fee_result happy_world [] "0x9001"%string = Ok 3000
  /\ exists params,
       prepareSwapParams "0x9001"%string 1000000 happy_world []
       = ([Fee "0x9001"%string], Ok params)
       /\ Swap.tokenIn params = address USDC
       /\ Swap.amountOutMinimum params = 0
       /\ Swap.sqrtPriceLimitX96 params = 0.
Proof.
  split; [reflexivity |].
  apply (prepareSwapParams_fixed_fields
           {| Pool.poolContract := "0x9001"%string;
              Pool.token0 := address LINK;
              Pool.token1 := address USDC;
              Pool.fee := 3000 |}
           1000000 happy_world [] 3000 eq_refl).
Defined.

Lemma codec_round_trip_witness :
  (6 <= 18)%nat
  /\ valid_amount 6 "1.50"%string = true
  /\ exists n,
       parseUnits 18 "1.50"%string 6 = Ok n
       /\ normalize (formatUnits n 6) = normalize "1.50"%string
       /\ parseUnits 18 (formatUnits n 6) 6 = Ok n.
Proof.
  split; [lia | split; [reflexivity |]].
  apply (codec_round_trip 18 "1.50"%string 6); [lia | reflexivity].
Defined.

Lemma parseUnits_rejects_witness :
  is_negative "-1"%string /\ parseUnits 18 "-1"%string 6 = Err InvalidAmount.
Proof.
  assert (H : is_negative "-1"%string) by (exists "1"%string; reflexivity).
  split; [exact H |].
  apply (parseUnits_rejects 18 "-1"%string 6 (or_introl H)).
Defined.

Lemma supplied_amount_in_input_units_witness :
  parseUnits 18 "1" (decimals USDC) = Ok 1000000
  /\ In (Log "Successfully supplied 0.000000000001 LINK to Aave.")
        (fst (run 18 happy_world "1")).
Proof.
  split; [reflexivity |].
  destruct (supplied_amount_in_input_units 18 happy_world "1" 1000000 eq_refl)
    as (_ & _ & Hlog & _).
  exact (proj2 (Hlog eq_refl)).
Defined.

(** * More properties at concrete inputs *)

Lemma approveToken_one_approval_witness :
  snd (approveToken 18 (address USDC) "1" happy_world []) = Ok tt
  /\ exists l,
       fst (approveToken 18 (address USDC) "1" happy_world []) = [] ++ l
       /\ In (Wait "0xa1"%string) l.
Proof.
  split; [reflexivity |].
  destruct (approveToken_one_approval 18 (address USDC) "1" happy_world [])
    as (l & Hl & _ & _ & Hok).
  exists l. split; [exact Hl |].
  destruct (Hok eq_refl) as (amt & hash & receipt & -> & _ & Hs & _).
  injection Hs as <-. right. right. right. right. right. right. left.
  reflexivity.
Defined.


Lemma supplyToAave_two_submissions_witness :
  snd (supplyToAave (address LINK) 1000000 happy_world []) = Ok tt
  /\ exists l,
       fst (supplyToAave (address LINK) 1000000 happy_world []) = [] ++ l
       /\ In (Wait "0xc1"%string) l.
Proof.
  split; [reflexivity |].
  destruct (supplyToAave_two_submissions (address LINK) 1000000 happy_world [])
    as (l & Hl & _ & _ & _ & Hok).
  exists l. split; [exact Hl |].
  destruct (Hok eq_refl) as (hash1 & receipt1 & hash2 & receipt2
                             & -> & _ & _ & Hs & _).
  injection Hs as <-. right. right. right. right. left. reflexivity.
Defined.

Lemma supplyToAave_failure_wrapped_witness :
  exists t' e,
    supplyToAave (address LINK) 1000000 wait_down_world [] = (t', Err e)
    /\ e = mkError "Aave supply failed"
    /\ In (LogError "An error occurred while supplying tokens to Aave:"
                    "network unavailable")
          t'.
Proof.
  do 2 eexists. split; [reflexivity |].
  split.
  - exact (proj1 (supplyToAave_failure_wrapped
                    (address LINK) 1000000 wait_down_world [] _ _ eq_refl)).
  - vm_compute. repeat (first [left; reflexivity | right]).
Defined.

Lemma getPoolInfo_guard_witness :
  getPool_result (with_getPool (Ok (JsStr "")) happy_world) []
                 (address USDC) (address LINK) 3000
  = Ok (JsStr "")
  /\ truthy (JsStr "") = false
  /\ getPoolInfo USDC LINK (with_getPool (Ok (JsStr "")) happy_world) []
     = ([GetPool (address USDC) (address LINK) 3000],
        Err (mkError "Failed to get pool address")).
Proof.
  split; [reflexivity | split; [reflexivity |]].
  apply (getPoolInfo_guard USDC LINK (with_getPool (Ok (JsStr "")) happy_world)
           [] (JsStr "") eq_refl); reflexivity.
Defined.

Lemma executeSwap_failure_unwrapped_witness :
  exists params t',
    executeSwap SWAP_ROUTER_CONTRACT_ADDRESS params swap_down_world []
    = (t', Err network_down)
    /\ t' = [Send {| to := SWAP_ROUTER_CONTRACT_ADDRESS;
                     data := exactInputSingle params |}].
Proof.
  exists {| Swap.tokenIn := address USDC;
            Swap.tokenOut := address LINK;
            Swap.fee := 3000;
            Swap.recipient := signer_address swap_down_world;
            Swap.amountIn := 1000000;
            Swap.amountOutMinimum := 0;
            Swap.sqrtPriceLimitX96 := 0 |}.
  eexists. split; [reflexivity |].
  match goal with
  | |- ?t' = [Send {| to := ?r; data := exactInputSingle ?p |}] =>
      destruct (executeSwap_failure_unwrapped r p swap_down_world [] t'
                  network_down eq_refl) as [[Hp _] | (_ & _ & Ht)];
        [discriminate Hp | exact Ht]
  end.
Defined.

Lemma calls_follow_fixed_sequence_witness :
  parseUnits 18 "1" (decimals USDC) = Ok 1000000
  /\ exists rest,
       calls (fst (run 18 swap_down_world "1")) ++ rest = full_run_calls.
Proof.
  split; [reflexivity |].
  apply (calls_follow_fixed_sequence 18 swap_down_world "1" 1000000 eq_refl).
Defined.

Lemma run_ends_with_verdict_witness :
  parseUnits 18 "1" (decimals USDC) = Ok 1000000
  /\ calls (fst (run 18 happy_world "1")) = full_run_calls
  /\ exists pre,
       fst (run 18 happy_world "1")
       = pre ++ [Log "Transaction Hash: https://sepolia.etherscan.io/tx/0xc1"].
Proof.
  split; [reflexivity |].
  destruct (run_ends_with_verdict 18 happy_world "1" 1000000 eq_refl)
    as [(_ & Hcalls & Hlast) | (Hno & _)]; [| discriminate Hno].
  split; [exact Hcalls |].
  destruct Hlast as (pre & hash & before & after & Hpre & _ & Hs).
  injection Hs as <-. exists pre. exact Hpre.
Defined.

Lemma submissions_well_formed_witness :
  parseUnits 18 "1" (decimals USDC) = Ok 1000000
  /\ Forall (well_formed happy_world)
            (submissions (fst (run 18 happy_world "1"))).
Proof.
  split; [reflexivity |].
  apply (submissions_well_formed 18 happy_world "1" 1000000 eq_refl).
Defined.

Lemma swap_fee_is_read_again_witness :
  exists t2 info t3 params,
    getPoolInfo USDC LINK fee_change_world [] = (t2, Ok info)
    /\ prepareSwapParams (Pool.poolContract info) 1000000 fee_change_world t2
       = (t3, Ok params)
    /\ Pool.fee info = 3000
    /\ Swap.fee params = 500
    /\ fee_result fee_change_world t2 (Pool.poolContract info)
       = Ok (Swap.fee params).
Proof.
  do 4 eexists. split; [reflexivity |]. split; [reflexivity |].
  split; [reflexivity |]. split; [reflexivity |].
  eapply (swap_fee_is_read_again fee_change_world [] _ _ _ 1000000 _);
    reflexivity.
Defined.

Lemma waits_are_for_submitted_witness :
  parseUnits 18 "1" (decimals USDC) = Ok 1000000
  /\ In (Wait "0xa1"%string) (fst (run 18 happy_world "1"))
  /\ exists pre tx post,
       fst (run 18 happy_world "1") = pre ++ Send tx :: post
       /\ send_result happy_world pre tx = Ok "0xa1"%string.
Proof.
  assert (Hin : In (Wait "0xa1"%string) (fst (run 18 happy_world "1"))).
  { vm_compute. repeat (first [left; reflexivity | right]). }
  split; [reflexivity | split; [exact Hin |]].
  apply (waits_are_for_submitted 18 happy_world "1" 1000000 "0xa1"%string
           eq_refl Hin).
Defined.

Lemma success_line_only_when_complete_witness :
  parseUnits 18 "1" (decimals USDC) = Ok 1000000
  /\ In (Log ("Successfully supplied " ++ "0.000000000001 LINK to Aave."))
        (fst (run 18 happy_world "1"))
  /\ reports_no_error (fst (run 18 happy_world "1")) = true.
Proof.
  assert (Hin : In (Log ("Successfully supplied "
                         ++ "0.000000000001 LINK to Aave."))
                   (fst (run 18 happy_world "1"))).
  { vm_compute. repeat (first [left; reflexivity | right]). }
  split; [reflexivity | split; [exact Hin |]].
  apply (success_line_only_when_complete 18 happy_world "1" 1000000
           "0.000000000001 LINK to Aave."%string eq_refl Hin).
Defined.
